(** * The digest normalizer and segmenter of [frontend/src/App.tsx]

    A shallow embedding of [prettifyMarkdown] and [splitIntoDigest] and of
    the JavaScript string and regular-expression operations they call, and
    a model of the state of the component [App] that calls them, followed
    by their properties.

    A JavaScript string is a sequence of UTF-16 code units; it is modelled
    as [list N].  Regular expressions are kept as syntax trees and run by a
    backtracking matcher written after the continuation-passing semantics
    of ECMA-262 (section 22.2.2), so that each pattern of the source is
    transcribed literally. *)

From Stdlib Require Import List NArith Arith Lia Bool String Ascii.
Import ListNotations.

(** ** Strings as sequences of code units *)

Definition jsstring := list N.

(** ASCII literals of the source, written as Rocq strings. *)
Definition js (s : string) : jsstring :=
  map N_of_ascii (list_ascii_of_string s).

Definition LF : N := 10%N.

(** [WhiteSpace] and [LineTerminator] of ECMA-262: the characters removed
    by [String.prototype.trim] and matched by the class escape [\s]. *)
Definition is_ws (c : N) : bool :=
  (((9 <=? c) && (c <=? 13))
   || (c =? 32) || (c =? 160) || (c =? 5760)
   || ((8192 <=? c) && (c <=? 8202))
   || (c =? 8232) || (c =? 8233) || (c =? 8239) || (c =? 8287)
   || (c =? 12288) || (c =? 65279))%N.

Fixpoint trimStart (s : jsstring) : jsstring :=
  match s with
  | [] => []
  | c :: t => if is_ws c then trimStart t else s
  end.

Definition trimEnd (s : jsstring) : jsstring := rev (trimStart (rev s)).

(** [String.prototype.trim]. *)
Definition trim (s : jsstring) : jsstring := trimEnd (trimStart s).

(** Truthiness of a string: [!s] holds exactly for the empty string. *)
Definition truthy (s : jsstring) : bool :=
  match s with [] => false | _ :: _ => true end.

(** ** Regular expressions *)

Module Regex.

(** The constructs used by the patterns of the source.  Every quantified
    atom there is a single character or character class, so [Rep] takes
    the class directly; [hi = None] is the unbounded quantifier. *)
Inductive re : Type :=
| Eps
| Chr (p : N -> bool)
| Bol
| Seq (a b : re)
| Alt (a b : re)
| Rep (p : N -> bool) (lo : nat) (hi : option nat)
| Grp (i : nat) (a : re)
| Ahead (a : re).

(** State of a match attempt: index into the input, the input from that
    index on, and the captures made so far. *)
Record mstate : Type := MState
  { m_pos : nat;
    m_rest : jsstring;
    m_caps : list (nat * jsstring) }.

Definition cont := mstate -> option mstate.

Definition advance (c : N) (t : jsstring) (x : mstate) : mstate :=
  MState (S (m_pos x)) t (m_caps x).

Definition set_cap (i : nat) (v : jsstring) (x : mstate) : mstate :=
  MState (m_pos x) (m_rest x) ((i, v) :: m_caps x).

(** Greedy repetition of a class ([RepeatMatcher]): one more character is
    tried first; stopping is allowed once the lower bound is used up. *)
Fixpoint greedy (p : N -> bool) (lo fuel : nat) (x : mstate) (k : cont)
  : option mstate :=
  let stop := match lo with O => k x | S _ => None end in
  match fuel with
  | O => stop
  | S f =>
      match m_rest x with
      | c :: t =>
          if p c then
            match greedy p (pred lo) f (advance c t x) k with
            | Some y => Some y
            | None => stop
            end
          else stop
      | [] => stop
      end
  end.

Fixpoint run (r : re) (x : mstate) (k : cont) : option mstate :=
  match r with
  | Eps => k x
  | Chr p =>
      match m_rest x with
      | c :: t => if p c then k (advance c t x) else None
      | [] => None
      end
  | Bol => match m_pos x with O => k x | S _ => None end
  | Seq a b => run a x (fun y => run b y k)
  | Alt a b =>
      match run a x k with
      | Some y => Some y
      | None => run b x k
      end
  | Rep p lo hi =>
      greedy p lo
        (match hi with Some h => h | None => List.length (m_rest x) end) x k
  | Grp i a =>
      run a x (fun y =>
        k (set_cap i (firstn (m_pos y - m_pos x) (m_rest x)) y))
  | Ahead a =>
      match run a x Some with
      | Some y => k (MState (m_pos x) (m_rest x) (m_caps y))
      | None => None
      end
  end.

(** One match attempt at index [pos], where [s] is the input from [pos]
    on: the length of the match and its captures. *)
Definition exec (r : re) (pos : nat) (s : jsstring)
  : option (nat * list (nat * jsstring)) :=
  match run r (MState pos s []) Some with
  | Some y => Some (m_pos y - pos, m_caps y)
  | None => None
  end.

(** Replacement templates: literal text and [$n] references. *)
Inductive titem : Type :=
| TLit (s : jsstring)
| TGroup (i : nat).

Fixpoint get_cap (i : nat) (caps : list (nat * jsstring)) : jsstring :=
  match caps with
  | [] => []
  | (j, v) :: rest => if Nat.eqb i j then v else get_cap i rest
  end.

Definition subst (tmpl : list titem) (caps : list (nat * jsstring))
  : jsstring :=
  flat_map (fun it => match it with
                      | TLit s => s
                      | TGroup i => get_cap i caps
                      end) tmpl.

(** [String.prototype.replace] with a global pattern.  The scan goes left
    to right; [skip] counts the characters of the current match still to
    be passed over.  After an empty match the scan moves on by one
    character, which is copied. *)
Fixpoint replace_go (r : re) (tmpl : list titem) (pos skip : nat)
  (s : jsstring) : jsstring :=
  match skip with
  | S k =>
      match s with
      | [] => []
      | _ :: t => replace_go r tmpl (S pos) k t
      end
  | O =>
      match exec r pos s with
      | Some (n, caps) =>
          subst tmpl caps ++
          match s with
          | [] => []
          | c :: t =>
              match n with
              | O => c :: replace_go r tmpl (S pos) 0 t
              | S k => replace_go r tmpl (S pos) k t
              end
          end
      | None =>
          match s with
          | [] => []
          | c :: t => c :: replace_go r tmpl (S pos) 0 t
          end
      end
  end.

Definition replace_all (r : re) (tmpl : list titem) (s : jsstring)
  : jsstring :=
  replace_go r tmpl 0 0 s.

(** [String.prototype.replace] with a pattern that has no [g] flag: only
    the first match is replaced. *)
Fixpoint replace_first_go (r : re) (tmpl : list titem) (pos : nat)
  (s : jsstring) : jsstring :=
  match exec r pos s with
  | Some (n, caps) => subst tmpl caps ++ skipn n s
  | None =>
      match s with
      | [] => []
      | c :: t => c :: replace_first_go r tmpl (S pos) t
      end
  end.

Definition replace_first (r : re) (tmpl : list titem) (s : jsstring)
  : jsstring :=
  replace_first_go r tmpl 0 s.

(** [String.prototype.split] with a pattern ([RegExp.prototype[@@split]]
    without captures).  [cur] holds, reversed, the piece begun at the end
    [p] of the previous separator; [fresh] tells that the scan index [q]
    equals [p].  A match that ends at [p] is passed over. *)
Fixpoint split_go (r : re) (pos skip : nat) (fresh : bool)
  (cur : jsstring) (s : jsstring) : list jsstring :=
  match s with
  | [] => [rev cur]
  | c :: t =>
      match skip with
      | S k => split_go r (S pos) k true [] t
      | O =>
          match exec r pos s with
          | Some (O, _) =>
              if fresh then split_go r (S pos) 0 false (c :: cur) t
              else rev cur :: split_go r (S pos) 0 false [c] t
          | Some (S k, _) => rev cur :: split_go r (S pos) k true [] t
          | None => split_go r (S pos) 0 false (c :: cur) t
          end
      end
  end.

Definition split (r : re) (s : jsstring) : list jsstring :=
  match s with
  | [] => match exec r 0 [] with Some _ => [] | None => [[]] end
  | _ :: _ => split_go r 0 0 true [] s
  end.

End Regex.

Import Regex.

(** ** The patterns of the source *)

Definition lit (c : N) : re := Chr (N.eqb c).

Fixpoint seqs (l : list re) : re :=
  match l with
  | [] => Eps
  | a :: rest => Seq a (seqs rest)
  end.

Definition STAR : N := 42%N.
Definition COLON : N := 58%N.
Definition HASH : N := 35%N.
Definition SPACE : N := 32%N.
Definition DOT : N := 46%N.

(** [[^*\n]] *)
Definition label_char (c : N) : bool :=
  negb ((c =? STAR) || (c =? LF))%N.

(** [[A-Z]] *)
Definition upper (c : N) : bool := ((65 <=? c) && (c <=? 90))%N.

(** [\d] *)
Definition digit (c : N) : bool := ((48 <=? c) && (c <=? 57))%N.

(** [[A-Za-z0-9 &/'’\-]]; the right single quotation mark is U+2019. *)
Definition heading_char (c : N) : bool :=
  (upper c || ((97 <=? c) && (c <=? 122)) || digit c
   || (c =? 32) || (c =? 38) || (c =? 47) || (c =? 39) || (c =? 8217)
   || (c =? 45))%N.

(** [/(^|\n)\*\*([^*\n]{3,60})\*\*:\s*/g] *)
Definition bold_header : re :=
  seqs [ Grp 1 (Alt Bol (lit LF));
         lit STAR; lit STAR;
         Grp 2 (Rep label_char 3 (Some 60));
         lit STAR; lit STAR; lit COLON;
         Rep is_ws 0 None ].

(** ["$1### $2\n\n"] *)
Definition bold_header_subst : list titem :=
  [ TGroup 1; TLit (js "### "); TGroup 2; TLit [LF; LF] ].

(** [/(^|\n)([A-Z][A-Za-z0-9 &/'’\-]{4,80}):\s*\n/g] *)
Definition title_case_header : re :=
  seqs [ Grp 1 (Alt Bol (lit LF));
         Grp 2 (Seq (Chr upper) (Rep heading_char 4 (Some 80)));
         lit COLON;
         Rep is_ws 0 None;
         lit LF ].

(** ["$1### $2\n"] *)
Definition title_case_header_subst : list titem :=
  [ TGroup 1; TLit (js "### "); TGroup 2; TLit [LF] ].

(** [/\n(?=##?\s+)/g] *)
Definition story_boundary : re :=
  Seq (lit LF)
      (Ahead (seqs [ lit HASH; Rep (N.eqb HASH) 0 (Some 1);
                     Rep is_ws 1 None ])).

(** [/^##?\s+/] *)
Definition title_marker : re :=
  seqs [ Bol; lit HASH; Rep (N.eqb HASH) 0 (Some 1); Rep is_ws 1 None ].

(** [/\n(?=\d+\.\s+)/g] *)
Definition numbered_boundary : re :=
  Seq (lit LF)
      (Ahead (seqs [ Rep digit 1 None; lit DOT; Rep is_ws 1 None ])).

(** ** Array and string helpers *)

(** [String.prototype.split] with the one-character separator ["\n"]. *)
Fixpoint split_on (c : N) (s : jsstring) : list jsstring :=
  match s with
  | [] => [[]]
  | x :: t =>
      if (x =? c)%N then [] :: split_on c t
      else match split_on c t with
           | p :: ps => (x :: p) :: ps
           | [] => [[x]]
           end
  end.

(** [Array.prototype.join]. *)
Fixpoint join (sep : jsstring) (l : list jsstring) : jsstring :=
  match l with
  | [] => []
  | x :: rest =>
      match rest with
      | [] => x
      | _ :: _ => x ++ sep ++ join sep rest
      end
  end.

(** ** Results of evaluation *)

Inductive error : Type := TypeError.

Inductive result (A : Type) : Type :=
| Ok (a : A)
| Throw (e : error).

Arguments Ok {A} a.
Arguments Throw {A} e.

Definition bind {A B : Type} (m : result A) (f : A -> result B)
  : result B :=
  match m with
  | Ok a => f a
  | Throw e => Throw e
  end.

Notation "x <- m ;; k" := (bind m (fun x => k))
  (at level 61, m at next level, right associativity).

(** Calling a method on an array element: reading past the end gives
    [undefined], and a method call on [undefined] throws. *)
Definition method_on {A B : Type} (elt : option A) (f : A -> B)
  : result B :=
  match elt with
  | Some a => Ok (f a)
  | None => Throw TypeError
  end.

(** ** The program *)

Record DigestCard : Type := Card
  { title : jsstring;
    body : jsstring;
    subcards : list jsstring }.

Definition prettifyMarkdown (md : jsstring) : jsstring :=
  if negb (truthy md) then md
  else
    let s := trim md in
    let s := replace_all bold_header bold_header_subst s in
    let s := replace_all title_case_header title_case_header_subst s in
    s.

Definition TOP_STORY : jsstring := js "Top story".

(** The body of the loop over the story blocks. *)
Definition card_of_block (block : jsstring) : result DigestCard :=
  let lines := split_on LF block in
  let firstLine :=
    match nth_error lines 0 with
    | Some l => trim l
    | None => []
    end in
  let title := trim (replace_first title_marker [] firstLine) in
  let rest := trim (join [LF] (skipn 1 lines)) in
  let parts :=
    if truthy rest then split numbered_boundary rest else [] in
  body <- (if negb (Nat.eqb (List.length parts) 0)
           then method_on (nth_error parts 0) trim
           else Ok rest) ;;
  let subcards :=
    if Nat.ltb 1 (List.length parts)
    then filter truthy (map trim (skipn 1 parts))
    else [] in
  Ok (Card (if truthy title then title else TOP_STORY) body subcards).

Fixpoint digest_loop (blocks : list jsstring) : result (list DigestCard) :=
  match blocks with
  | [] => Ok []
  | block :: more =>
      card <- card_of_block block ;;
      cards <- digest_loop more ;;
      Ok (card :: cards)
  end.

Definition splitIntoDigest (md : jsstring) : result (list DigestCard) :=
  let text := trim md in
  if negb (truthy text) then Ok []
  else
    let blocks :=
      filter truthy (map trim (split story_boundary text)) in
    let storyBlocks :=
      if Nat.ltb 1 (List.length blocks) then blocks else [text] in
    digest_loop storyBlocks.

(** The pipeline of the component: [splitIntoDigest(prettifyMarkdown(s))]. *)
Definition digest (s : jsstring) : result (list DigestCard) :=
  splitIntoDigest (prettifyMarkdown s).

(** ** Auxiliary definitions used in the statements and proofs *)

Definition all_ws (s : jsstring) : Prop := Forall (fun c => is_ws c = true) s.

(** Number of characters that are not whitespace. *)
Definition nws (s : jsstring) : nat :=
  List.length (filter (fun c => negb (is_ws c)) s).

(** A structurally recursive reading of [trimEnd]. *)
Fixpoint trimEnd_rec (s : jsstring) : jsstring :=
  match s with
  | [] => []
  | c :: t =>
      match trimEnd_rec t with
      | [] => if is_ws c then [] else [c]
      | r => c :: r
      end
  end.

(** The longest prefix of at most [n] characters of the class [p]. *)
Fixpoint prefix_upto (n : nat) (p : N -> bool) (s : jsstring) : jsstring :=
  match n with
  | O => []
  | S n' =>
      match s with
      | c :: t => if p c then c :: prefix_upto n' p t else []
      | [] => []
      end
  end.

(** The longest prefix of the class [p]. *)
Fixpoint prefix_of (p : N -> bool) (s : jsstring) : jsstring :=
  match s with
  | c :: t => if p c then c :: prefix_of p t else []
  | [] => []
  end.

(** The matcher state [n] characters further on. *)
Definition jump (n : nat) (x : mstate) : mstate :=
  MState (m_pos x + n) (skipn n (m_rest x)) (m_caps x).

(** What [\s*\n] consumes: whitespace up to the last line feed of the
    whitespace run. *)
Fixpoint ws_lf (s : jsstring) : option nat :=
  match s with
  | c :: t =>
      if is_ws c then
        match ws_lf t with
        | Some n => Some (S n)
        | None => if (c =? LF)%N then Some 1 else None
        end
      else None
  | [] => None
  end.

(** The bold pseudo-header without its first group: the label and the
    number of whitespace characters taken after the colon. *)
Definition bold_at (s : jsstring) : option (jsstring * nat) :=
  match s with
  | a :: b :: t =>
      if ((a =? STAR) && (b =? STAR))%N then
        let L := prefix_upto 60 label_char t in
        if Nat.leb 3 (List.length L) then
          match skipn (List.length L) t with
          | x :: y :: z :: w =>
              if ((x =? STAR) && (y =? STAR) && (z =? COLON))%N
              then Some (L, List.length (prefix_of is_ws w))
              else None
          | _ => None
          end
        else None
      else None
  | _ => None
  end.

(** The title-case pseudo-header without its first group: the heading and
    the number of characters taken after the colon. *)
Definition heading_at (s : jsstring) : option (jsstring * nat) :=
  match s with
  | c :: t =>
      if upper c then
        let X := prefix_upto 80 heading_char t in
        if Nat.leb 4 (List.length X) then
          match skipn (List.length X) t with
          | z :: w =>
              if (z =? COLON)%N then
                match ws_lf w with
                | Some n => Some (c :: X, n)
                | None => None
                end
              else None
          | [] => None
          end
        else None
      else None
  | [] => None
  end.

(** A match of [(^|\n)body]: the alternative [^] is tried first. *)
Definition with_line_start (at_start : bool)
  (body : jsstring -> option (jsstring * nat)) (extra : nat)
  (s : jsstring) : option (nat * list (nat * jsstring)) :=
  match (if at_start then body s else None) with
  | Some (L, k) => Some (List.length L + extra + k, [(2%nat, L); (1%nat, [])])
  | None =>
      match s with
      | c :: t =>
          if (c =? LF)%N then
            match body t with
            | Some (L, k) =>
                Some (S (List.length L + extra + k),
                      [(2%nat, L); (1%nat, [LF])])
            | None => None
            end
          else None
      | [] => None
      end
  end.

(** The lookahead [##?\s+]. *)
Definition header_ahead (t : jsstring) : bool :=
  match t with
  | c :: t' =>
      (c =? HASH)%N &&
      match t' with
      | d :: t'' =>
          if (d =? HASH)%N
          then match t'' with w :: _ => is_ws w | [] => false end
          else is_ws d
      | [] => false
      end
  | [] => false
  end.

(** The lookahead [\d+\.\s+]. *)
Definition numbered_ahead (t : jsstring) : bool :=
  let d := prefix_of digit t in
  negb (Nat.eqb (List.length d) 0) &&
  match skipn (List.length d) t with
  | x :: w :: _ => (x =? DOT)%N && is_ws w
  | _ => false
  end.

(** A separator of [split]: a line feed followed by what [ahead] accepts. *)
Definition lf_before (ahead : jsstring -> bool) (s : jsstring) : bool :=
  match s with
  | c :: t => (c =? LF)%N && ahead t
  | [] => false
  end.

(** Splitting at the one-character separators told by [sep]. *)
Fixpoint split_when (sep : jsstring -> bool) (s : jsstring)
  : list jsstring :=
  match s with
  | [] => [[]]
  | c :: t =>
      if sep s then [] :: split_when sep t
      else match split_when sep t with
           | p :: ps => (c :: p) :: ps
           | [] => [[c]]
           end
  end.

(** What [/^##?\s+/] removes from the start of a line. *)
Definition strip_marker (s : jsstring) : jsstring :=
  match s with
  | c :: t =>
      if (c =? HASH)%N then
        let t1 := match t with
                  | d :: t' => if (d =? HASH)%N then t' else t
                  | [] => t
                  end in
        match t1 with
        | w :: _ => if is_ws w then trimStart t1 else s
        | [] => s
        end
      else s
  | [] => s
  end.

(** The card that [card_of_block] returns, with the matcher replaced by
    the deterministic readings above. *)
Definition block_card (block : jsstring) : DigestCard :=
  let lines := split_on LF block in
  let firstLine := trim (hd [] lines) in
  let title := trim (strip_marker firstLine) in
  let rest := trim (join [LF] (tl lines)) in
  let parts :=
    if truthy rest then split_when (lf_before numbered_ahead) rest else [] in
  Card (if truthy title then title else TOP_STORY)
       (match parts with p :: _ => trim p | [] => rest end)
       (filter truthy (map trim (tl parts))).

Definition story_blocks (text : jsstring) : list jsstring :=
  let blocks :=
    filter truthy (map trim (split_when (lf_before header_ahead) text)) in
  if Nat.ltb 1 (List.length blocks) then blocks else [text].

Definition digest_cards (md : jsstring) : list DigestCard :=
  let text := trim md in
  if truthy text then map block_card (story_blocks text) else [].

(** Non-whitespace characters held by the cards. *)
Definition sum_nws (l : list jsstring) : nat := list_sum (map nws l).

Definition card_nws (c : DigestCard) : nat :=
  nws (title c) + nws (body c) + sum_nws (subcards c).

Definition cards_nws (cs : list DigestCard) : nat :=
  list_sum (map card_nws cs).

(** Occurrences of a character. *)
Definition count_char (c : N) (s : jsstring) : nat :=
  List.length (filter (N.eqb c) s).

(** Header-marker characters that normalization adds to a text. *)
Definition markers_introduced (s : jsstring) : nat :=
  count_char HASH (prettifyMarkdown s) - count_char HASH s.

(** A text that begins with one or more digits and a period, the period
    being followed by whitespace or by the end of the text. *)
Definition item_start (x : jsstring) : bool :=
  let d := prefix_of digit x in
  negb (Nat.eqb (List.length d) 0) &&
  match skipn (List.length d) x with
  | c :: r =>
      (c =? DOT)%N && match r with w :: _ => is_ws w | [] => true end
  | [] => false
  end.

(** The strings [xs] occur in [t] one after the other, without overlap. *)
Inductive occurs_in_order : list jsstring -> jsstring -> Prop :=
| occurs_nil (t : jsstring) : occurs_in_order [] t
| occurs_cons (x : jsstring) (xs : list jsstring) (g t : jsstring) :
    occurs_in_order xs t -> occurs_in_order (x :: xs) (g ++ x ++ t).

(** The same shape, as a decomposition. *)
Definition item_shape (p : jsstring) : Prop :=
  exists d r,
    p = d ++ DOT :: r /\
    d <> [] /\ Forall (fun x => digit x = true) d /\
    (r = [] \/ exists w r', r = w :: r' /\ is_ws w = true).

(** What holds of every entry of a [subcards] list. *)
Definition subcard_ok (x : jsstring) : Prop :=
  x <> [] /\ trim x = x /\ item_start x = true.






(** The lines of a text. *)
Definition lines (u : jsstring) : list jsstring := split_on LF u.

(** A canonical header line: it begins with [### ]. *)
Definition header_line (h : jsstring) : bool :=
  match h with
  | a :: b :: c :: d :: _ =>
      ((a =? HASH) && (b =? HASH) && (c =? HASH) && (d =? SPACE))%N
  | _ => false
  end.

(** [h] stands in [u] between two line boundaries. *)
Definition line_at (h u : jsstring) : Prop :=
  exists a b,
    u = a ++ h ++ b /\
    (a = [] \/ exists a0, a = a0 ++ [LF]) /\
    (b = [] \/ exists b0, b = LF :: b0).

(** The title of a block before the fallback label is considered. *)
Definition raw_title (block : jsstring) : jsstring :=
  trim (strip_marker (trim (hd [] (split_on LF block)))).

(** The story blocks that the loop of [splitIntoDigest] runs over, for a
    trimmed text that is not empty. *)
Definition storyBlocks (text : jsstring) : list jsstring :=
  let blocks := filter truthy (map trim (split story_boundary text)) in
  if Nat.ltb 1 (List.length blocks) then blocks else [text].

(** The title of a block as [card_of_block] computes it, before the
    fallback [|| "Top story"] is applied. *)
Definition title_candidate (block : jsstring) : jsstring :=
  trim (replace_first title_marker []
          (match nth_error (split_on LF block) 0 with
           | Some l => trim l
           | None => []
           end)).

(** [x] is a contiguous piece of [s]. *)
Definition piece_of (x s : jsstring) : Prop :=
  exists a b, s = a ++ x ++ b.

(** A text in which the header marker character occurs only in groups of
    three, as in the headers that normalization writes. *)
Inductive marked : jsstring -> Prop :=
| marked_nil : marked []
| marked_char (c : N) (u : jsstring) :
    c <> HASH -> marked u -> marked (c :: u)
| marked_hashes (u : jsstring) :
    marked u -> marked (HASH :: HASH :: HASH :: u).

(** Number of positions of [s] at which the pattern [r] matches, [s] being
    the input from index [pos] on. *)
Fixpoint count_matches (r : re) (pos : nat) (s : jsstring) : nat :=
  match s with
  | [] => 0
  | _ :: t =>
      (match exec r pos s with Some _ => 1 | None => 0 end)
      + count_matches r (S pos) t
  end.

(** The pattern [r] matches at no position of [x]. *)
Definition no_match_inside (r : re) (x : jsstring) : Prop :=
  forall pos a b, x = a ++ b -> exec r pos b = None.

(** The separator test [sep] holds at no position of [x]. *)
Definition no_sep_in (sep : jsstring -> bool) (x : jsstring) : Prop :=
  forall a b, x = a ++ b -> sep b = false.

(** ** The component

    The state of one instance of [App]: the three state variables, the ref
    [didFetchRef], and three counters that the source does not have: the
    calls of [getNewsSummary] made so far, those that have not settled
    yet, and the runs that stand between their [try]/[catch] and their
    [finally].  The effect and the three parts of [run] (up to the
    [await], after it, and the [finally] branch) are state transformers.
    React decides when the effect runs and whether a render falls between
    two updates, and the network decides when and how the call settles, so
    all of these are events, and every state between two of them may be
    rendered. *)
Module App.

Definition FAILED : jsstring := js "Failed to load tech news summary.".

(** What the call can resolve with.  [getNewsSummary] hands on
    [response.data.summary] unchecked, so the value is a string or some
    other value: [undefined], [null], a number, a boolean, an array or an
    object of the response. *)
Inductive jsvalue : Type :=
| VString (s : jsstring)
| VOther.

Record State : Type := mkState {
  summary : jsvalue;
  loading : bool;
  error : option jsstring;
  didFetchRef : bool;
  calls : nat;
  pending : nat;
  finishing : nat
}.

Definition initial : State := mkState (VString []) true None false 0 0 0.

(** [run] up to the [await]: [setLoading(true)], [setError(null)] and the
    call of [getNewsSummary]. *)
Definition run_start (st : State) : State :=
  mkState (summary st) true None (didFetchRef st)
          (S (calls st)) (S (pending st)) (finishing st).

(** The effect, run after a render in which [summary] was [seen]; a value
    that is not a string differs from the empty string. *)
Definition effect (seen : jsvalue) (st : State) : State :=
  if didFetchRef st then st
  else match seen with
       | VString [] =>
           run_start (mkState (summary st) (loading st) (error st) true
                              (calls st) (pending st) (finishing st))
       | _ => st
       end.

Inductive outcome : Type :=
| Resolved (data : jsvalue)
| Rejected.

(** [run] after the [await]: [setSummary(data)], or the [catch] branch.  It
    runs only for a call that is pending. *)
Definition run_settle (o : outcome) (st : State) : State :=
  match pending st with
  | O => st
  | S n =>
      match o with
      | Resolved data =>
          mkState data (loading st) (error st) (didFetchRef st)
                  (calls st) n (S (finishing st))
      | Rejected =>
          mkState (summary st) (loading st) (Some FAILED) (didFetchRef st)
                  (calls st) n (S (finishing st))
      end
  end.

(** The [finally] branch of [run]: [setLoading(false)]. *)
Definition run_finally (st : State) : State :=
  match finishing st with
  | O => st
  | S n =>
      mkState (summary st) false (error st) (didFetchRef st)
              (calls st) (pending st) n
  end.

Inductive event : Type :=
| Effect (seen : jsvalue)
| Settled (o : outcome)
| Finally.

Definition step (st : State) (e : event) : State :=
  match e with
  | Effect seen => effect seen st
  | Settled o => run_settle o st
  | Finally => run_finally st
  end.

Definition run_events (evs : list event) (st : State) : State :=
  fold_left step evs st.

(** What a render shows: the loading block, the error block, and the cards
    when the third block is rendered. *)
Record View : Type := mkView {
  loading_block : bool;
  error_block : bool;
  card_blocks : option (list DigestCard)
}.

(** A render computes the cards first.  On a value that is not a string
    this throws: [prettifyMarkdown] returns a falsy value as it is and
    calls [trim] on any other, [splitIntoDigest] calls [trim], and none of
    these values has that method. *)
Definition render (st : State) : result View :=
  cards <- match summary st with
           | VString s => digest s
           | VOther => Throw TypeError
           end ;;
  let err := match error st with Some e => truthy e | None => false end in
  Ok (mkView (loading st) err
             (if negb (loading st) && negb err then Some cards else None)).

End App.

(** The states that an instance of the component goes through. *)
Definition app_in_flight : App.State :=
  App.mkState (App.VString []) true None true 1 1 0.

Definition app_settling (o : App.outcome) : App.State :=
  match o with
  | App.Resolved data => App.mkState data true None true 1 0 1
  | App.Rejected =>
      App.mkState (App.VString []) true (Some App.FAILED) true 1 0 1
  end.

Definition app_settled (o : App.outcome) : App.State :=
  match o with
  | App.Resolved data => App.mkState data false None true 1 0 0
  | App.Rejected =>
      App.mkState (App.VString []) false (Some App.FAILED) true 1 0 0
  end.

Definition app_shape (st : App.State) : Prop :=
  st = App.initial \/ st = app_in_flight \/
  (exists o, st = app_settling o) \/ (exists o, st = app_settled o).

(** The first line of a block as the loop of [splitIntoDigest] reads it:
    the trimmed [lines[0]], or the empty string when there is none. *)
Definition first_line (block : jsstring) : jsstring :=
  match nth_error (split_on LF block) 0 with
  | Some l => trim l
  | None => []
  end.

(** The marker characters at the start of a title line: one or two [#]
    that whitespace follows. *)
Definition marker_length (line : jsstring) : nat :=
  match line with
  | c :: t =>
      if (c =? HASH)%N then
        match t with
        | d :: t' =>
            if (d =? HASH)%N
            then match t' with
                 | w :: _ => if is_ws w then 2 else 0
                 | [] => 0
                 end
            else if is_ws d then 1 else 0
        | [] => 0
        end
      else 0
  | [] => 0
  end.

(** The marker characters at the start of the first line of a block. *)
Definition block_markers_stripped (block : jsstring) : nat :=
  marker_length (first_line block).

(** The same over the story blocks of [md]. *)
Definition markers_stripped (md : jsstring) : nat :=
  let text := trim md in
  if truthy text
  then list_sum (map block_markers_stripped (storyBlocks text))
  else 0.







(** * Properties *)

#[local] Arguments N.eqb : simpl never.
#[local] Arguments N.leb : simpl never.
#[local] Arguments Nat.sub : simpl never.

(** ** Whitespace and trimming *)

Lemma trimStart_snoc_nonws (s : jsstring) (c : N) :
  is_ws c = false -> trimStart (s ++ [c]) = trimStart s ++ [c].
Proof.
  intros Hc. induction s as [|x s IH]; simpl.
  - now rewrite Hc.
  - destruct (is_ws x); [exact IH | reflexivity].
Qed.

Lemma trimStart_snoc_ws (s : jsstring) (c : N) :
  is_ws c = true ->
  trimStart (s ++ [c]) = match trimStart s with [] => [] | r => r ++ [c] end.
Proof.
  intros Hc. induction s as [|x s IH]; simpl.
  - now rewrite Hc.
  - destruct (is_ws x); [exact IH | reflexivity].
Qed.

Lemma trimEnd_rec_rev (s : jsstring) :
  trimEnd_rec s = rev (trimStart (rev s)).
Proof.
  induction s as [|c s IH]; simpl; [reflexivity|].
  rewrite IH. destruct (is_ws c) eqn:Hc.
  - rewrite (trimStart_snoc_ws _ _ Hc).
    destruct (trimStart (rev s)) as [|y r]; simpl; [reflexivity|].
    rewrite rev_app_distr. simpl.
    destruct (rev r ++ [y]) eqn:E; [|reflexivity].
    now destruct (rev r).
  - rewrite (trimStart_snoc_nonws _ _ Hc), rev_app_distr. simpl.
    destruct (rev (trimStart (rev s))); reflexivity.
Qed.

Lemma trimEnd_eq (s : jsstring) : trimEnd s = trimEnd_rec s.
Proof. unfold trimEnd. now rewrite trimEnd_rec_rev. Qed.

Lemma trimStart_split (s : jsstring) :
  exists a, s = a ++ trimStart s /\ all_ws a.
Proof.
  induction s as [|c s [a [E Ha]]]; simpl.
  - exists []. split; [reflexivity | constructor].
  - destruct (is_ws c) eqn:Hc.
    + exists (c :: a). split; [simpl; congruence | now constructor].
    + exists []. split; [reflexivity | constructor].
Qed.

Lemma trimStart_head (s : jsstring) (c : N) (t : jsstring) :
  trimStart s = c :: t -> is_ws c = false.
Proof.
  induction s as [|x s IH]; simpl; [discriminate|].
  destruct (is_ws x) eqn:Hx; [exact IH | congruence].
Qed.

Lemma trimStart_all_ws (s : jsstring) : all_ws s -> trimStart s = [].
Proof.
  induction 1 as [|c s Hc _ IH]; simpl; [reflexivity | now rewrite Hc].
Qed.

Lemma trimStart_nil_all_ws (s : jsstring) : trimStart s = [] -> all_ws s.
Proof.
  induction s as [|c s IH]; simpl; [constructor|].
  destruct (is_ws c) eqn:Hc; [|discriminate].
  intros H. apply Forall_cons; [exact Hc | exact (IH H)].
Qed.

Lemma trimStart_nonws (c : N) (t : jsstring) :
  is_ws c = false -> trimStart (c :: t) = c :: t.
Proof. intros H. simpl. now rewrite H. Qed.

Lemma trimStart_app_ws (a s : jsstring) :
  all_ws a -> trimStart (a ++ s) = trimStart s.
Proof.
  induction 1 as [|c a Hc _ IH]; simpl; [reflexivity | now rewrite Hc].
Qed.

Lemma trimEnd_split (s : jsstring) :
  exists b, s = trimEnd s ++ b /\ all_ws b.
Proof.
  rewrite trimEnd_eq.
  induction s as [|c s [b [E Hb]]]; simpl.
  - exists []. split; [reflexivity | constructor].
  - destruct (trimEnd_rec s) as [|y r] eqn:Er.
    + destruct (is_ws c) eqn:Hc.
      * exists (c :: b). simpl in E. split; [simpl; congruence | now constructor].
      * exists b. simpl in *. split; [congruence | assumption].
    + exists b. split; [rewrite E at 1; reflexivity | assumption].
Qed.

Lemma trimEnd_all_ws (s : jsstring) : all_ws s -> trimEnd s = [].
Proof.
  rewrite trimEnd_eq.
  induction 1 as [|c s Hc _ IH]; simpl; [reflexivity|].
  now rewrite IH, Hc.
Qed.

Lemma trimEnd_nil_all_ws (s : jsstring) : trimEnd s = [] -> all_ws s.
Proof.
  rewrite trimEnd_eq.
  induction s as [|c s IH]; simpl; [constructor|].
  destruct (trimEnd_rec s) eqn:E; [|discriminate].
  destruct (is_ws c) eqn:Hc; [|discriminate].
  intros _. apply Forall_cons; [exact Hc | exact (IH eq_refl)].
Qed.

Lemma trimEnd_cons_nonws (c : N) (t : jsstring) :
  is_ws c = false -> trimEnd (c :: t) = c :: trimEnd t.
Proof.
  intros Hc. rewrite !trimEnd_eq. simpl.
  destruct (trimEnd_rec t); [now rewrite Hc | reflexivity].
Qed.

Lemma trimEnd_app_keep (a s : jsstring) :
  trimEnd s <> [] -> trimEnd (a ++ s) = a ++ trimEnd s.
Proof.
  rewrite !trimEnd_eq. intros Hs.
  induction a as [|c a IH]; simpl; [reflexivity|].
  rewrite IH. destruct (a ++ trimEnd_rec s) eqn:E; [|reflexivity].
  apply app_eq_nil in E. tauto.
Qed.

Lemma trimEnd_app_ws (s b : jsstring) :
  all_ws b -> trimEnd (s ++ b) = trimEnd s.
Proof.
  rewrite !trimEnd_eq. intros Hb.
  induction s as [|c s IH]; simpl.
  - rewrite <- trimEnd_eq. now apply trimEnd_all_ws.
  - now rewrite IH.
Qed.

Lemma trimEnd_last (s t : jsstring) (c : N) :
  trimEnd s = t ++ [c] -> is_ws c = false.
Proof.
  rewrite trimEnd_eq. revert t.
  induction s as [|x s IH]; simpl; intros t E.
  - now destruct t.
  - destruct (trimEnd_rec s) as [|y r] eqn:Er.
    + destruct (is_ws x) eqn:Hx.
      * now destruct t.
      * destruct t as [|z t]; simpl in E; [congruence|].
        injection E as _ E. now destruct t.
    + destruct t as [|z t]; simpl in E.
      * injection E as _ E. discriminate.
      * injection E as _ E. eapply IH. exact E.
Qed.

Lemma trimEnd_idem_nonws (s : jsstring) (c : N) :
  is_ws c = false -> trimEnd (s ++ [c]) = s ++ [c].
Proof.
  intros Hc. rewrite trimEnd_app_keep.
  - f_equal. rewrite trimEnd_eq. simpl. now rewrite Hc.
  - rewrite trimEnd_eq. simpl. now rewrite Hc.
Qed.

(** [trim] cuts whitespace off both ends and nothing else. *)
Lemma trim_split (s : jsstring) :
  exists a b, s = a ++ trim s ++ b /\ all_ws a /\ all_ws b.
Proof.
  unfold trim.
  destruct (trimStart_split s) as [a [Ea Ha]].
  destruct (trimEnd_split (trimStart s)) as [b [Eb Hb]].
  exists a, b. repeat split; try assumption.
  rewrite <- Eb. exact Ea.
Qed.

Lemma trim_head (s : jsstring) (c : N) (t : jsstring) :
  trim s = c :: t -> is_ws c = false.
Proof.
  unfold trim. intros E.
  destruct (trimStart s) as [|x r] eqn:Es.
  - discriminate.
  - pose proof (trimStart_head _ _ _ Es) as Hx.
    rewrite (trimEnd_cons_nonws _ _ Hx) in E. congruence.
Qed.

Lemma trim_last (s t : jsstring) (c : N) :
  trim s = t ++ [c] -> is_ws c = false.
Proof. unfold trim. apply trimEnd_last. Qed.

Lemma trim_all_ws (s : jsstring) : all_ws s -> trim s = [].
Proof.
  intros H. unfold trim. now rewrite (trimStart_all_ws _ H).
Qed.

Lemma trim_nil_all_ws (s : jsstring) : trim s = [] -> all_ws s.
Proof.
  unfold trim. intros H.
  destruct (trimStart_split s) as [a [E Ha]].
  apply trimEnd_nil_all_ws in H.
  rewrite E. apply Forall_app. split; assumption.
Qed.

Lemma nws_app (a b : jsstring) : nws (a ++ b) = nws a + nws b.
Proof. unfold nws. now rewrite filter_app, length_app. Qed.

Lemma nws_all_ws (s : jsstring) : all_ws s -> nws s = 0.
Proof.
  unfold nws. induction 1 as [|c s Hc _ IH]; simpl; [reflexivity|].
  now rewrite Hc.
Qed.


Lemma nws_trim (s : jsstring) : nws (trim s) = nws s.
Proof.
  destruct (trim_split s) as [a [b [E [Ha Hb]]]].
  rewrite E at 2. rewrite !nws_app, (nws_all_ws _ Ha), (nws_all_ws _ Hb). lia.
Qed.

(** A trimmed string is trimmed. *)
Lemma trim_fixed (s : jsstring) : trim (trim s) = trim s.
Proof.
  destruct (trim s) as [|c t] eqn:E; [reflexivity|].
  pose proof (trim_head _ _ _ E) as Hc.
  destruct (@exists_last _ (c :: t)) as [u [z Ez]]; [discriminate|].
  rewrite Ez in E. pose proof (trim_last _ _ _ E) as Hz.
  unfold trim. rewrite (trimStart_nonws _ _ Hc), Ez.
  now apply trimEnd_idem_nonws.
Qed.

(** ** The matcher on the patterns of the source *)

Lemma jump_0 (x : mstate) : jump 0 x = x.
Proof. destruct x as [p r c]. unfold jump. simpl. now rewrite Nat.add_0_r. Qed.

Lemma jump_advance (n : nat) (c : N) (t : jsstring) (x : mstate) :
  m_rest x = c :: t -> jump n (advance c t x) = jump (S n) x.
Proof.
  intros E. unfold jump, advance. simpl. rewrite E. simpl.
  now rewrite Nat.add_succ_r.
Qed.

Lemma prefix_upto_all (p : N -> bool) (s : jsstring) (n : nat) :
  List.length s <= n -> prefix_upto n p s = prefix_of p s.
Proof.
  revert n. induction s as [|c s IH]; intros [|n] H; simpl in *;
    try reflexivity; try lia.
  destruct (p c); [|reflexivity]. f_equal. apply IH. lia.
Qed.

Lemma prefix_upto_split (p : N -> bool) (n : nat) (s : jsstring) :
  s = prefix_upto n p s ++ skipn (List.length (prefix_upto n p s)) s.
Proof.
  revert s. induction n as [|n IH]; intros [|c s]; simpl; try reflexivity.
  destruct (p c); simpl; [f_equal; apply IH | reflexivity].
Qed.

Lemma prefix_upto_Forall (p : N -> bool) (n : nat) (s : jsstring) :
  Forall (fun c => p c = true) (prefix_upto n p s).
Proof.
  revert s. induction n as [|n IH]; intros [|c s]; simpl; try constructor.
  destruct (p c) eqn:E; constructor; [exact E | apply IH].
Qed.

Lemma prefix_of_split (p : N -> bool) (s : jsstring) :
  s = prefix_of p s ++ skipn (List.length (prefix_of p s)) s.
Proof.
  induction s as [|c s IH]; simpl; [reflexivity|].
  destruct (p c); simpl; [f_equal; exact IH | reflexivity].
Qed.

Lemma prefix_of_Forall (p : N -> bool) (s : jsstring) :
  Forall (fun c => p c = true) (prefix_of p s).
Proof.
  induction s as [|c s IH]; simpl; [constructor|].
  destruct (p c) eqn:E; constructor; [exact E | exact IH].
Qed.

(** A greedy repetition does not give characters back when the rest of the
    pattern cannot start with a character of the class. *)
Lemma greedy_commit (p : N -> bool) (k : cont) :
  (forall y c t, m_rest y = c :: t -> p c = true -> k y = None) ->
  forall fuel lo x,
    greedy p lo fuel x k =
    let n := List.length (prefix_upto fuel p (m_rest x)) in
    if Nat.leb lo n then k (jump n x) else None.
Proof.
  intros Hk. induction fuel as [|f IH]; intros lo x; simpl.
  - rewrite jump_0. now destruct lo.
  - destruct (m_rest x) as [|c t] eqn:Er.
    + simpl. rewrite jump_0. now destruct lo.
    + destruct (p c) eqn:Hc.
      * rewrite IH. simpl.
        rewrite (jump_advance _ _ _ _ Er).
        set (n := List.length (prefix_upto f p t)).
        destruct lo as [|lo]; simpl.
        -- destruct (k (jump (S n) x)); [reflexivity|].
           eapply Hk; eassumption.
        -- destruct (Nat.leb lo n); [|reflexivity].
           now destruct (k (jump (S n) x)).
      * simpl. rewrite jump_0. now destruct lo.
Qed.

(** Nor when the rest of the pattern accepts whatever follows. *)
Lemma greedy_accept (p : N -> bool) (k : cont) :
  (forall y, k y <> None) ->
  forall fuel lo x,
    greedy p lo fuel x k =
    let n := List.length (prefix_upto fuel p (m_rest x)) in
    if Nat.leb lo n then k (jump n x) else None.
Proof.
  intros Hk. induction fuel as [|f IH]; intros lo x; simpl.
  - rewrite jump_0. now destruct lo.
  - destruct (m_rest x) as [|c t] eqn:Er.
    + simpl. rewrite jump_0. now destruct lo.
    + destruct (p c) eqn:Hc.
      * rewrite IH. simpl.
        rewrite (jump_advance _ _ _ _ Er).
        set (n := List.length (prefix_upto f p t)).
        destruct lo as [|lo]; simpl.
        -- destruct (k (jump (S n) x)) eqn:E; [reflexivity|].
           now apply Hk in E.
        -- destruct (Nat.leb lo n); [|reflexivity].
           now destruct (k (jump (S n) x)).
      * simpl. rewrite jump_0. now destruct lo.
Qed.

(** [\s*\n] gives whitespace back up to the last line feed of the run. *)
Lemma greedy_ws_lf (k : cont) :
  (forall y, k y <> None) ->
  forall fuel x,
    List.length (m_rest x) <= fuel ->
    greedy is_ws 0 fuel x
      (fun y => match m_rest y with
                | [] => None
                | c :: t => if (LF =? c)%N then k (advance c t y) else None
                end) =
    match ws_lf (m_rest x) with
    | Some n => k (jump n x)
    | None => None
    end.
Proof.
  intros Hk. induction fuel as [|f IH]; intros x Hlen; simpl.
  - destruct (m_rest x); [reflexivity | simpl in Hlen; lia].
  - destruct (m_rest x) as [|c t] eqn:Er; [reflexivity|].
    simpl in Hlen. cbn [ws_lf].
    destruct (is_ws c) eqn:Hc.
    + rewrite IH by (simpl; lia). simpl.
      destruct (ws_lf t) as [n|].
      * rewrite (jump_advance _ _ _ _ Er).
        destruct (k (jump (S n) x)) eqn:E; [reflexivity|].
        now apply Hk in E.
      * rewrite N.eqb_sym.
        destruct (N.eqb c LF); [|reflexivity].
        f_equal. unfold jump, advance. rewrite Er. simpl.
        now rewrite Nat.add_1_r.
    + destruct (N.eqb LF c) eqn:E; [|reflexivity].
      apply N.eqb_eq in E. subst c. discriminate.
Qed.

(** The bound used for an unbounded quantifier is enough: more fuel does
    not change the result of a repetition. *)
Lemma greedy_fuel_enough (p : N -> bool) (k : cont) :
  forall fuel lo x,
    List.length (m_rest x) <= fuel ->
    greedy p lo fuel x k = greedy p lo (List.length (m_rest x)) x k.
Proof.
  induction fuel as [|f IH]; intros lo [pos rest caps] H; simpl in *.
  - destruct rest; [reflexivity | simpl in H; lia].
  - destruct rest as [|c t]; simpl; [reflexivity|].
    destruct (p c); [|reflexivity].
    rewrite IH by (simpl in *; lia). reflexivity.
Qed.

Lemma exec_story_boundary (pos : nat) (s : jsstring) :
  exec story_boundary pos s =
  if lf_before header_ahead s then Some (1, []) else None.
Proof.
  unfold exec, story_boundary, lf_before, header_ahead.
  destruct s as [|c t]; [reflexivity|].
  rewrite (N.eqb_sym c LF).
  destruct t as [|h t']; simpl.
  { destruct (N.eqb LF c); reflexivity. }
  rewrite (N.eqb_sym h HASH).
  destruct (N.eqb LF c); simpl; [|reflexivity].
  destruct (N.eqb HASH h); simpl; [|reflexivity].
  destruct t' as [|d t'']; [reflexivity|].
  rewrite (N.eqb_sym d HASH).
  destruct (N.eqb HASH d) eqn:Ed.
  - apply N.eqb_eq in Ed. subst d.
    destruct t'' as [|w u]; [reflexivity|]. simpl.
    destruct (is_ws w) eqn:Hw; simpl; [|reflexivity].
    rewrite greedy_accept by discriminate. simpl.
    f_equal. f_equal. lia.
  - simpl.
    destruct (is_ws d) eqn:Hd; [|reflexivity].
    rewrite greedy_accept by discriminate. simpl.
    f_equal. f_equal. lia.
Qed.

#[local] Arguments skipn : simpl never.

Lemma digit_not_dot (c : N) : digit c = true -> N.eqb DOT c = false.
Proof.
  unfold digit, DOT. intros H. apply andb_true_iff in H as [H1 H2].
  apply N.leb_le in H1. apply N.eqb_neq. lia.
Qed.

Lemma exec_numbered_boundary (pos : nat) (s : jsstring) :
  exec numbered_boundary pos s =
  if lf_before numbered_ahead s then Some (1, []) else None.
Proof.
  unfold exec, numbered_boundary, lf_before, numbered_ahead.
  destruct s as [|c t]; [reflexivity|].
  rewrite (N.eqb_sym c LF). simpl.
  destruct (N.eqb LF c); simpl; [|reflexivity].
  rewrite greedy_commit.
  2:{ intros y a u E Ha. simpl. rewrite E. now rewrite (digit_not_dot _ Ha). }
  simpl. rewrite prefix_upto_all by lia.
  set (n := List.length (prefix_of digit t)).
  destruct n as [|n]; simpl; [reflexivity|].
  destruct (skipn (S n) t) as [|x u] eqn:Eu; simpl; [reflexivity|].
  rewrite (N.eqb_sym x DOT).
  destruct (N.eqb DOT x); simpl; [|now destruct u].
  destruct u as [|w v]; simpl; [reflexivity|].
  destruct (is_ws w); [|reflexivity].
  rewrite greedy_accept by discriminate. simpl.
  f_equal. f_equal. lia.
Qed.

Lemma trimStart_skipn (s : jsstring) :
  trimStart s = skipn (List.length (prefix_of is_ws s)) s.
Proof.
  induction s as [|c s IH]; simpl; [reflexivity|].
  destruct (is_ws c); simpl; [exact IH | reflexivity].
Qed.

Lemma replace_first_title_marker_later (pos : nat) (s : jsstring) :
  replace_first_go title_marker [] (S pos) s = s.
Proof.
  revert pos. induction s as [|c s IH]; intros pos; simpl; [reflexivity|].
  now rewrite IH.
Qed.

Lemma replace_first_title_marker (s : jsstring) :
  replace_first title_marker [] s = strip_marker s.
Proof.
  unfold replace_first, strip_marker.
  destruct s as [|c t]; [reflexivity|].
  cbn [replace_first_go]. rewrite replace_first_title_marker_later.
  unfold exec, title_marker. simpl.
  rewrite (N.eqb_sym c HASH).
  destruct (N.eqb HASH c); [|reflexivity].
  destruct t as [|d t']; [reflexivity|].
  rewrite (N.eqb_sym d HASH). simpl.
  destruct (N.eqb HASH d) eqn:Ed.
  - apply N.eqb_eq in Ed. subst d.
    destruct t' as [|w u]; [reflexivity|]. simpl.
    destruct (is_ws w) eqn:Hw; simpl; [|reflexivity].
    rewrite greedy_accept by discriminate. simpl.
    rewrite prefix_upto_all by lia.
    rewrite trimStart_skipn, ?Hw, Nat.sub_0_r.
    reflexivity.
  - destruct (is_ws d) eqn:Hd; simpl; [|reflexivity].
    rewrite greedy_accept by discriminate. simpl.
    rewrite prefix_upto_all by lia.
    rewrite trimStart_skipn, ?Hd, Nat.sub_0_r.
    reflexivity.
Qed.

Lemma label_char_not_star (c : N) :
  label_char c = true -> N.eqb STAR c = false.
Proof.
  unfold label_char. intros H. apply negb_true_iff, orb_false_iff in H.
  rewrite N.eqb_sym. tauto.
Qed.

Lemma heading_char_not_colon (c : N) :
  heading_char c = true -> N.eqb COLON c = false.
Proof.
  intros H. apply N.eqb_neq. intros <-. discriminate.
Qed.

Lemma firstn_prefix_upto (p : N -> bool) (n : nat) (s : jsstring) :
  firstn (List.length (prefix_upto n p s)) s = prefix_upto n p s.
Proof.
  revert s. induction n as [|n IH]; intros [|c s]; simpl; try reflexivity.
  destruct (p c); simpl; [f_equal; apply IH | reflexivity].
Qed.

#[local] Arguments greedy : simpl never.
#[local] Arguments prefix_upto : simpl never.
#[local] Arguments Nat.leb : simpl never.

(** The bold pseudo-header after its first group. *)
Lemma run_bold_body (x : mstate) :
  run (seqs [ lit STAR; lit STAR;
              Grp 2 (Rep label_char 3 (Some 60));
              lit STAR; lit STAR; lit COLON;
              Rep is_ws 0 None ]) x Some =
  match bold_at (m_rest x) with
  | Some (L, k) =>
      Some (MState (m_pos x + (List.length L + 5 + k))
                   (skipn (List.length L + 5 + k) (m_rest x))
                   ((2%nat, L) :: m_caps x))
  | None => None
  end.
Proof.
  destruct x as [pos s caps]. unfold bold_at. simpl.
  destruct s as [|a s]; [reflexivity|].
  rewrite (N.eqb_sym a STAR).
  destruct s as [|b t]; simpl.
  { now destruct (N.eqb STAR a). }
  rewrite (N.eqb_sym b STAR).
  destruct (N.eqb STAR a); simpl; [|reflexivity].
  destruct (N.eqb STAR b); simpl; [|reflexivity].
  rewrite greedy_commit.
  2:{ intros y c u E Hc. simpl. rewrite E. now rewrite (label_char_not_star _ Hc). }
  cbn zeta. cbn [m_rest advance].
  set (L := prefix_upto 60 label_char t).
  destruct (Nat.leb 3 (List.length L)); [|reflexivity].
  simpl.
  destruct (skipn (List.length L) t) as [|x1 u] eqn:Eu; [reflexivity|].
  rewrite (N.eqb_sym x1 STAR).
  destruct (N.eqb STAR x1); simpl; [|now destruct u as [|? [|? ?]]].
  destruct u as [|x2 u]; [reflexivity|].
  rewrite (N.eqb_sym x2 STAR).
  destruct (N.eqb STAR x2); simpl; [|now destruct u].
  destruct u as [|x3 w]; [reflexivity|].
  rewrite (N.eqb_sym x3 COLON).
  destruct (N.eqb COLON x3); simpl; [|reflexivity].
  rewrite greedy_accept by discriminate. simpl.
  rewrite prefix_upto_all by lia.
  set (k := List.length (prefix_of is_ws w)).
  unfold jump, advance, set_cap. cbn [m_pos m_rest m_caps].
  f_equal. f_equal.
  - lia.
  - replace (List.length L + 5 + k) with (k + (3 + (List.length L + 2))) by lia.
    rewrite <- !skipn_skipn. change (skipn 2 (a :: b :: t)) with t.
    rewrite Eu. reflexivity.
  - f_equal. f_equal.
    replace (S (S (pos + List.length L)) - S (S pos)) with (List.length L) by lia.
    apply firstn_prefix_upto.
Qed.

(** The title-case pseudo-header after its first group. *)
Lemma run_heading_body (x : mstate) :
  run (seqs [ Grp 2 (Seq (Chr upper) (Rep heading_char 4 (Some 80)));
              lit COLON;
              Rep is_ws 0 None;
              lit LF ]) x Some =
  match heading_at (m_rest x) with
  | Some (X, k) =>
      Some (MState (m_pos x + (List.length X + 1 + k))
                   (skipn (List.length X + 1 + k) (m_rest x))
                   ((2%nat, X) :: m_caps x))
  | None => None
  end.
Proof.
  destruct x as [pos s caps]. unfold heading_at. simpl.
  destruct s as [|c t]; [reflexivity|].
  destruct (upper c); [|reflexivity].
  rewrite greedy_commit.
  2:{ intros y a u E Ha. simpl. rewrite E.
      now rewrite (heading_char_not_colon _ Ha). }
  cbn zeta. cbn [m_rest advance].
  set (X := prefix_upto 80 heading_char t).
  destruct (Nat.leb 4 (List.length X)); [|reflexivity].
  simpl.
  destruct (skipn (List.length X) t) as [|z w] eqn:Ew; [reflexivity|].
  rewrite (N.eqb_sym z COLON).
  destruct (N.eqb COLON z); [|reflexivity].
  rewrite greedy_ws_lf; [|discriminate|simpl; lia].
  simpl. destruct (ws_lf w) as [k|]; [|reflexivity].
  unfold jump, advance, set_cap. cbn [m_pos m_rest m_caps].
  f_equal. f_equal.
  - simpl. lia.
  - replace (List.length (c :: X) + 1 + k)
      with (k + (1 + (List.length X + 1))) by (simpl; lia).
    rewrite <- !skipn_skipn. change (skipn 1 (c :: t)) with t.
    rewrite Ew. reflexivity.
  - f_equal. f_equal.
    replace (S (pos + List.length X) - pos) with (S (List.length X)) by lia.
    simpl. f_equal. apply firstn_prefix_upto.
Qed.

Section LineStart.

Variable body_re : list re.
Variable body : jsstring -> option (jsstring * nat).
Variable extra : nat.

Hypothesis run_body : forall x,
  run (seqs body_re) x Some =
  match body (m_rest x) with
  | Some (L, k) =>
      Some (MState (m_pos x + (List.length L + extra + k))
                   (skipn (List.length L + extra + k) (m_rest x))
                   ((2%nat, L) :: m_caps x))
  | None => None
  end.

(** A pattern [(^|\n)body] on which the body is deterministic. *)
Lemma exec_line_start (pos : nat) (s : jsstring) :
  exec (seqs (Grp 1 (Alt Bol (lit LF)) :: body_re)) pos s =
  with_line_start (Nat.eqb pos 0) body extra s.
Proof.
  unfold exec, with_line_start. cbn [seqs run m_pos m_rest].
  destruct pos as [|pos]; cbn [Nat.eqb].
  - rewrite run_body. cbn [set_cap m_rest m_pos m_caps].
    destruct (body s) as [[L k]|] eqn:Eb.
    + cbn [m_pos m_caps]. rewrite Nat.sub_0_r. reflexivity.
    + unfold lit. cbn [run m_rest].
      destruct s as [|c t]; [reflexivity|].
      rewrite (N.eqb_sym c LF).
      destruct (N.eqb LF c) eqn:Ec; [|reflexivity].
      apply N.eqb_eq in Ec. subst c.
      rewrite run_body. cbn [set_cap advance m_rest m_pos m_caps].
      destruct (body t) as [[L k]|]; [|reflexivity].
      cbn [m_pos m_caps]. rewrite Nat.sub_0_r. reflexivity.
  - unfold lit. cbn [run m_rest].
    destruct s as [|c t]; [reflexivity|].
    rewrite (N.eqb_sym c LF).
    destruct (N.eqb LF c) eqn:Ec; [|reflexivity].
    apply N.eqb_eq in Ec. subst c.
    rewrite run_body. cbn [set_cap advance m_rest m_pos m_caps].
    destruct (body t) as [[L k]|]; [|reflexivity].
    cbn [m_pos m_caps]. f_equal. f_equal.
    + lia.
    + replace (S (S pos) - S pos) with 1 by lia. reflexivity.
Qed.

End LineStart.

Lemma exec_bold_header (pos : nat) (s : jsstring) :
  exec bold_header pos s = with_line_start (Nat.eqb pos 0) bold_at 5 s.
Proof. apply exec_line_start. apply run_bold_body. Qed.

Lemma exec_title_case_header (pos : nat) (s : jsstring) :
  exec title_case_header pos s =
  with_line_start (Nat.eqb pos 0) heading_at 1 s.
Proof. apply exec_line_start. apply run_heading_body. Qed.

(** ** Splitting *)

Lemma split_when_cons (sep : jsstring -> bool) (s : jsstring) :
  split_when sep s = hd [] (split_when sep s) :: tl (split_when sep s).
Proof.
  destruct s as [|c t]; simpl; [reflexivity|].
  destruct (sep (c :: t)); [reflexivity|].
  destruct (split_when sep t); reflexivity.
Qed.

Lemma split_when_nonempty (sep : jsstring -> bool) (s : jsstring) :
  split_when sep s <> [].
Proof. rewrite split_when_cons. discriminate. Qed.

Section UnitSeparator.

Variable r : re.
Variable sep : jsstring -> bool.

Hypothesis exec_sep : forall pos s,
  exec r pos s = if sep s then Some (1, []) else None.
Hypothesis sep_nil : sep [] = false.

Lemma split_go_unit (s : jsstring) :
  forall pos fresh cur,
    split_go r pos 0 fresh cur s =
    (rev cur ++ hd [] (split_when sep s)) :: tl (split_when sep s).
Proof.
  induction s as [|c t IH]; intros pos fresh cur.
  - simpl. now rewrite app_nil_r.
  - cbn [split_go split_when]. rewrite exec_sep.
    destruct (sep (c :: t)).
    + rewrite IH. simpl. rewrite app_nil_r.
      now rewrite <- split_when_cons.
    + rewrite IH.
      destruct (split_when sep t) as [|p ps] eqn:Es.
      * now apply split_when_nonempty in Es.
      * simpl. now rewrite <- app_assoc.
Qed.

(** [split] with a pattern whose matches are single characters. *)
Lemma split_unit (s : jsstring) : split r s = split_when sep s.
Proof.
  unfold split. destruct s as [|c t].
  - rewrite exec_sep, sep_nil. reflexivity.
  - rewrite split_go_unit. cbn [rev app].
    symmetry. apply split_when_cons.
Qed.

End UnitSeparator.

Lemma split_story_boundary (s : jsstring) :
  split story_boundary s = split_when (lf_before header_ahead) s.
Proof. apply split_unit; [apply exec_story_boundary | reflexivity]. Qed.

Lemma split_numbered_boundary (s : jsstring) :
  split numbered_boundary s = split_when (lf_before numbered_ahead) s.
Proof. apply split_unit; [apply exec_numbered_boundary | reflexivity]. Qed.

Lemma split_on_when (c : N) (s : jsstring) :
  split_on c s =
  split_when (fun u => match u with x :: _ => N.eqb x c | [] => false end) s.
Proof.
  induction s as [|x t IH]; simpl; [reflexivity|].
  rewrite IH. reflexivity.
Qed.

(** A separator is a line feed; joining the pieces gives the text back. *)
Lemma join_split_when (sep : jsstring -> bool) :
  (forall c t, sep (c :: t) = true -> c = LF) ->
  forall s, join [LF] (split_when sep s) = s.
Proof.
  intros Hsep. induction s as [|c t IH]; [reflexivity|].
  cbn [split_when]. destruct (sep (c :: t)) eqn:E.
  - apply Hsep in E. subst c.
    cbn [join]. rewrite IH.
    destruct (split_when sep t) eqn:Es; [|reflexivity].
    now apply split_when_nonempty in Es.
  - destruct (split_when sep t) as [|p ps] eqn:Es.
    + now apply split_when_nonempty in Es.
    + cbn [join] in *. destruct ps; simpl in *; now rewrite IH.
Qed.

Lemma lf_before_LF (ahead : jsstring -> bool) (c : N) (t : jsstring) :
  lf_before ahead (c :: t) = true -> c = LF.
Proof.
  unfold lf_before. intros H. apply andb_true_iff in H as [H _].
  now apply N.eqb_eq in H.
Qed.

(** ** The segmenter never throws *)

Lemma truthy_false (s : jsstring) : truthy s = false <-> s = [].
Proof. destruct s; simpl; split; congruence. Qed.

Lemma card_of_block_ok (block : jsstring) :
  card_of_block block = Ok (block_card block).
Proof.
  unfold card_of_block, block_card.
  rewrite replace_first_title_marker, split_numbered_boundary.
  destruct (split_on LF block) as [|l ls]; cbn [nth_error hd tl];
    change (skipn 1 (@nil jsstring)) with (@nil jsstring);
    try change (skipn 1 (l :: ls)) with ls.
  - cbn [join]. change (trim []) with (@nil N). cbn [truthy].
    reflexivity.
  - set (rest := trim (join [LF] ls)).
    set (parts := if truthy rest then _ else _).
    destruct parts as [|p ps]; cbn [List.length Nat.eqb negb bind method_on
      nth_error Nat.ltb Nat.leb tl]; [reflexivity|].
    destruct ps as [|q ps]; reflexivity.
Qed.

Lemma digest_loop_ok (blocks : list jsstring) :
  digest_loop blocks = Ok (map block_card blocks).
Proof.
  induction blocks as [|b bs IH]; [reflexivity|].
  cbn [digest_loop map]. rewrite card_of_block_ok, IH. reflexivity.
Qed.

Lemma splitIntoDigest_ok (md : jsstring) :
  splitIntoDigest md = Ok (digest_cards md).
Proof.
  unfold splitIntoDigest, digest_cards, story_blocks.
  destruct (truthy (trim md)); cbn [negb]; [|reflexivity].
  rewrite split_story_boundary. apply digest_loop_ok.
Qed.

Lemma prettifyMarkdown_all_ws (s : jsstring) :
  all_ws s -> prettifyMarkdown s = [].
Proof.
  intros H. unfold prettifyMarkdown.
  destruct s as [|c t]; [reflexivity|]. cbn [truthy negb].
  rewrite (trim_all_ws _ H). reflexivity.
Qed.

Lemma digest_cards_nil_iff (md : jsstring) :
  digest_cards md = [] <-> trim md = [].
Proof.
  unfold digest_cards, story_blocks. split.
  - destruct (trim md) as [|c t] eqn:E; [reflexivity|]. cbn [truthy].
    set (blocks := filter truthy _).
    destruct (Nat.ltb 1 (List.length blocks)) eqn:El.
    + destruct blocks; [discriminate El | discriminate].
    + discriminate.
  - intros ->. reflexivity.
Qed.

Lemma trim_nil_iff_all_ws (s : jsstring) : trim s = [] <-> all_ws s.
Proof. split; [apply trim_nil_all_ws | apply trim_all_ws]. Qed.

(** ** Content held by the cards *)

Lemma nws_cons (c : N) (s : jsstring) :
  nws (c :: s) = (if is_ws c then 0 else 1) + nws s.
Proof. unfold nws. simpl. now destruct (is_ws c). Qed.

Lemma sum_nws_cons (x : jsstring) (l : list jsstring) :
  sum_nws (x :: l) = nws x + sum_nws l.
Proof. reflexivity. Qed.

Lemma nws_join (l : list jsstring) : nws (join [LF] l) = sum_nws l.
Proof.
  induction l as [|x l IH]; [reflexivity|].
  rewrite sum_nws_cons. cbn [join]. destruct l as [|y l].
  - unfold sum_nws. simpl. lia.
  - rewrite !nws_app, IH. change (nws [LF]) with 0. lia.
Qed.

Lemma sum_nws_trimmed (l : list jsstring) :
  sum_nws (filter truthy (map trim l)) = sum_nws l.
Proof.
  induction l as [|x l IH]; [reflexivity|].
  cbn [map filter]. rewrite sum_nws_cons, <- IH, <- (nws_trim x).
  destruct (trim x); reflexivity.
Qed.

Lemma nws_split_when (sep : jsstring -> bool) (s : jsstring) :
  (forall c t, sep (c :: t) = true -> c = LF) ->
  sum_nws (split_when sep s) = nws s.
Proof.
  intros H. rewrite <- nws_join. now rewrite join_split_when.
Qed.

Lemma nws_trimStart (s : jsstring) : nws (trimStart s) = nws s.
Proof.
  destruct (trimStart_split s) as [a [E Ha]].
  rewrite E at 2. rewrite nws_app, (nws_all_ws _ Ha). reflexivity.
Qed.

Lemma story_blocks_nws (text : jsstring) :
  sum_nws (story_blocks text) = nws text.
Proof.
  unfold story_blocks.
  destruct (Nat.ltb 1 _).
  - rewrite sum_nws_trimmed. apply nws_split_when. apply lf_before_LF.
  - unfold sum_nws. simpl. lia.
Qed.

Lemma split_on_nws (s : jsstring) :
  nws (hd [] (split_on LF s)) + sum_nws (tl (split_on LF s)) = nws s.
Proof.
  rewrite <- (nws_split_when
    (fun u => match u with x :: _ => N.eqb x LF | [] => false end) s).
  - rewrite <- split_on_when.
    destruct (split_on LF s); reflexivity.
  - intros c t H. now apply N.eqb_eq in H.
Qed.

(** ** The pieces made at numbered items *)

Lemma digit_not_ws (c : N) : digit c = true -> is_ws c = false.
Proof.
  unfold digit, is_ws. intros H. apply andb_true_iff in H as [H1 H2].
  apply N.leb_le in H1, H2.
  repeat (apply orb_false_iff; split);
    try (apply N.eqb_neq; lia);
    apply andb_false_iff; [right|left]; apply N.leb_gt; lia.
Qed.

Lemma prefix_of_app_stop (p : N -> bool) (d : jsstring) (c : N)
  (r : jsstring) :
  Forall (fun x => p x = true) d -> p c = false ->
  prefix_of p (d ++ c :: r) = d.
Proof.
  intros Hd Hc. induction Hd as [|x d Hx _ IH]; simpl.
  - now rewrite Hc.
  - now rewrite Hx, IH.
Qed.

Lemma skipn_length_app {A : Type} (d r : list A) :
  skipn (List.length d) (d ++ r) = r.
Proof. induction d; simpl; auto. Qed.

(** What the lookahead of the numbered boundary tells about the text. *)
Lemma numbered_ahead_shape (t : jsstring) :
  numbered_ahead t = true ->
  exists d w u,
    t = d ++ DOT :: w :: u /\ d <> [] /\
    Forall (fun x => digit x = true) d /\ is_ws w = true.
Proof.
  unfold numbered_ahead. intros H.
  apply andb_true_iff in H as [Hd H].
  pose proof (prefix_of_split digit t) as E.
  pose proof (prefix_of_Forall digit t) as Fd.
  destruct (skipn (List.length (prefix_of digit t)) t) as [|x [|w u]];
    try discriminate.
  apply andb_true_iff in H as [Hx Hw]. apply N.eqb_eq in Hx. subst x.
  exists (prefix_of digit t), w, u. repeat split; try assumption.
  intros En. rewrite En in Hd. discriminate.
Qed.

Lemma item_start_shape (d r : jsstring) :
  d <> [] -> Forall (fun x => digit x = true) d ->
  item_start (d ++ DOT :: r) =
  match r with w :: _ => is_ws w | [] => true end.
Proof.
  intros Hne Hd. unfold item_start.
  rewrite (prefix_of_app_stop digit d DOT r Hd eq_refl).
  rewrite skipn_length_app.
  destruct d; [contradiction|]. reflexivity.
Qed.

Lemma hd_split_when_digits (sep : jsstring -> bool) (d rest : jsstring) :
  (forall c t, sep (c :: t) = true -> c = LF) ->
  Forall (fun x => digit x = true) d ->
  hd [] (split_when sep (d ++ rest)) = d ++ hd [] (split_when sep rest).
Proof.
  intros Hsep Hd. induction Hd as [|x d Hx _ IH]; [reflexivity|].
  cbn [app split_when].
  destruct (sep (x :: d ++ rest)) eqn:E.
  - apply Hsep in E. subst x. discriminate.
  - rewrite (split_when_cons sep (d ++ rest)). cbn [hd]. now rewrite IH.
Qed.

Lemma hd_split_when_nosep (sep : jsstring -> bool) (c : N) (t : jsstring) :
  sep (c :: t) = false ->
  hd [] (split_when sep (c :: t)) = c :: hd [] (split_when sep t).
Proof.
  intros E. cbn [split_when]. rewrite E.
  now rewrite (split_when_cons sep t).
Qed.

Lemma hd_split_when_head (sep : jsstring -> bool) (c : N) (t : jsstring) :
  hd [] (split_when sep (c :: t)) = [] \/
  exists r, hd [] (split_when sep (c :: t)) = c :: r.
Proof.
  destruct (sep (c :: t)) eqn:E.
  - left. cbn [split_when]. now rewrite E.
  - right. rewrite (hd_split_when_nosep _ _ _ E). eauto.
Qed.

(** A piece that follows a numbered boundary begins with the item marker. *)
Lemma hd_split_when_item (t : jsstring) :
  numbered_ahead t = true ->
  item_shape (hd [] (split_when (lf_before numbered_ahead) t)).
Proof.
  intros H. destruct (numbered_ahead_shape t H) as [d [w [u [E [Hne [Hd Hw]]]]]].
  subst t. rewrite (hd_split_when_digits _ d _ (lf_before_LF _) Hd).
  rewrite hd_split_when_nosep by reflexivity.
  exists d, (hd [] (split_when (lf_before numbered_ahead) (w :: u))).
  repeat split; try assumption.
  destruct (hd_split_when_head (lf_before numbered_ahead) w u) as [E|[r E]];
    rewrite E; [now left | right; eauto].
Qed.

Lemma tl_split_when_items (s : jsstring) :
  Forall item_shape (tl (split_when (lf_before numbered_ahead) s)).
Proof.
  induction s as [|c t IH]; [constructor|].
  cbn [split_when].
  destruct (lf_before numbered_ahead (c :: t)) eqn:E.
  - cbn [tl]. rewrite (split_when_cons _ t). constructor; [|exact IH].
    unfold lf_before in E. apply andb_true_iff in E as [_ E].
    apply hd_split_when_item. exact E.
  - rewrite (split_when_cons _ t) in *. exact IH.
Qed.

Lemma trimEnd_head (c : N) (t : jsstring) :
  trimEnd (c :: t) = [] \/ exists r, trimEnd (c :: t) = c :: r.
Proof.
  rewrite trimEnd_eq. simpl.
  destruct (trimEnd_rec t).
  - destruct (is_ws c); [now left | right; eauto].
  - right. eauto.
Qed.

Lemma item_shape_trim (p : jsstring) :
  item_shape p -> subcard_ok (trim p).
Proof.
  intros [d [r [E [Hne [Hd Hr]]]]]. subst p.
  destruct d as [|x d]; [contradiction|].
  pose proof (Forall_inv Hd) as Hx. apply digit_not_ws in Hx.
  assert (Et : trim ((x :: d) ++ DOT :: r) = (x :: d) ++ DOT :: trimEnd r).
  { unfold trim. cbn [app]. rewrite (trimStart_nonws _ _ Hx).
    change (x :: d ++ DOT :: r) with ((x :: d) ++ DOT :: r).
    rewrite trimEnd_app_keep.
    - now rewrite (trimEnd_cons_nonws DOT r eq_refl).
    - now rewrite (trimEnd_cons_nonws DOT r eq_refl). }
  unfold subcard_ok. rewrite trim_fixed. rewrite Et.
  split; [discriminate|]. split; [reflexivity|].
  rewrite (item_start_shape _ _ Hne Hd).
  destruct Hr as [->|[w [r' [-> Hw]]]]; [reflexivity|].
  destruct (trimEnd_head w r') as [E|[r2 E]]; rewrite E; [reflexivity|assumption].
Qed.

Lemma block_card_subcards (block : jsstring) :
  Forall subcard_ok (subcards (block_card block)).
Proof.
  unfold block_card. cbn [subcards].
  set (rest := trim _).
  assert (H : Forall item_shape
    (tl (if truthy rest
         then split_when (lf_before numbered_ahead) rest else []))).
  { destruct (truthy rest); [apply tl_split_when_items | constructor]. }
  induction H as [|p ps Hp _ IH]; [constructor|].
  cbn [map filter].
  destruct (truthy (trim p)); [|exact IH].
  constructor; [now apply item_shape_trim | exact IH].
Qed.

Lemma digest_cards_subcards (md : jsstring) :
  Forall (fun c => Forall subcard_ok (subcards c)) (digest_cards md).
Proof.
  unfold digest_cards. destruct (truthy (trim md)); [|constructor].
  apply Forall_map. apply Forall_forall. intros b _.
  apply block_card_subcards.
Qed.

(** ** Order of the subcards *)

Lemma occurs_prefix (xs : list jsstring) (g t : jsstring) :
  occurs_in_order xs t -> occurs_in_order xs (g ++ t).
Proof.
  intros H. destruct H as [t|x xs g' t H]; [constructor|].
  rewrite app_assoc. now constructor.
Qed.

Lemma occurs_suffix (xs : list jsstring) (t h : jsstring) :
  occurs_in_order xs t -> occurs_in_order xs (t ++ h).
Proof.
  induction 1 as [t|x xs g t H IH]; [constructor|].
  rewrite <- !app_assoc. now constructor.
Qed.

Lemma occurs_app (xs ys : list jsstring) (a b : jsstring) :
  occurs_in_order xs a -> occurs_in_order ys b ->
  occurs_in_order (xs ++ ys) (a ++ b).
Proof.
  intros Ha Hb. induction Ha as [t|x xs g t H IH].
  - now apply occurs_prefix.
  - cbn [app]. rewrite <- !app_assoc. now constructor.
Qed.

Lemma occurs_firstn (xs ys : list jsstring) (t : jsstring) :
  occurs_in_order (xs ++ ys) t -> occurs_in_order xs t.
Proof.
  revert t. induction xs as [|x xs IH]; intros t H; [constructor|].
  inversion H; subst. constructor. now apply IH.
Qed.

Lemma occurs_tail (x : jsstring) (xs : list jsstring) (t : jsstring) :
  occurs_in_order (x :: xs) t -> occurs_in_order xs t.
Proof.
  intros H. inversion H; subst.
  rewrite app_assoc. now apply occurs_prefix.
Qed.

Lemma occurs_skip (xs ys : list jsstring) (t : jsstring) :
  occurs_in_order (xs ++ ys) t -> occurs_in_order ys t.
Proof.
  induction xs as [|x xs IH]; intros H; [exact H|].
  apply IH. eapply occurs_tail. exact H.
Qed.

Lemma occurs_trim (xs : list jsstring) (s : jsstring) :
  occurs_in_order xs (trim s) -> occurs_in_order xs s.
Proof.
  intros H. destruct (trim_split s) as [a [b [E _]]].
  rewrite E. apply occurs_prefix. now apply occurs_suffix.
Qed.

(** The trimmed pieces of a text occur in it in their order. *)
Lemma occurs_trimmed_pieces (l : list jsstring) :
  occurs_in_order (filter truthy (map trim l)) (join [LF] l).
Proof.
  induction l as [|x l IH]; [constructor|].
  cbn [map filter join].
  assert (H : occurs_in_order (filter truthy (map trim l))
                match l with [] => [] | _ :: _ => [LF] ++ join [LF] l end).
  { destruct l; [constructor | now apply occurs_prefix]. }
  destruct (trim_split x) as [a [b [E _]]].
  destruct (truthy (trim x)).
  - replace (match l with [] => x | _ :: _ => x ++ [LF] ++ join [LF] l end)
      with (a ++ trim x ++
            (b ++ match l with [] => [] | _ :: _ => [LF] ++ join [LF] l end)).
    + constructor. now apply occurs_prefix.
    + destruct l; rewrite ?app_nil_r, ?app_assoc;
        rewrite <- (app_assoc a (trim x) b), <- E; reflexivity.
  - destruct l; [constructor | now apply occurs_prefix].
Qed.

Lemma block_card_occurs (block : jsstring) :
  occurs_in_order (subcards (block_card block)) block.
Proof.
  unfold block_card. cbn [subcards].
  set (lines := split_on LF block).
  set (rest := trim (join [LF] (tl lines))).
  assert (Hrest : forall xs, occurs_in_order xs rest ->
                             occurs_in_order xs block).
  { intros xs H. apply occurs_trim in H.
    assert (E : join [LF] lines = block).
    { unfold lines. rewrite split_on_when. apply join_split_when.
      intros c t Hc. now apply N.eqb_eq in Hc. }
    rewrite <- E. destruct lines as [|l ls]; [exact H|].
    cbn [tl]  in H. destruct ls as [|q ls].
    - cbn [join] in *. rewrite <- (app_nil_r l). now apply occurs_prefix.
    - change (join [LF] (l :: q :: ls))
        with (l ++ [LF] ++ join [LF] (q :: ls)).
      rewrite app_assoc. now apply occurs_prefix. }
  apply Hrest.
  destruct (truthy rest); [|constructor].
  pose proof (join_split_when _ (lf_before_LF numbered_ahead) rest) as E.
  destruct (split_when (lf_before numbered_ahead) rest) as [|p ps];
    [constructor|].
  cbn [tl]. rewrite <- E. cbn [join].
  destruct ps as [|q ps]; [constructor|].
  rewrite app_assoc. apply occurs_prefix. apply occurs_trimmed_pieces.
Qed.

Lemma blocks_occur (parts : list jsstring) :
  occurs_in_order
    (flat_map (fun b => subcards (block_card b))
              (filter truthy (map trim parts)))
    (join [LF] parts).
Proof.
  induction parts as [|x l IH]; [constructor|].
  cbn [map filter join].
  assert (H : occurs_in_order
                (flat_map (fun b => subcards (block_card b))
                          (filter truthy (map trim l)))
                match l with [] => [] | _ :: _ => [LF] ++ join [LF] l end).
  { destruct l; [constructor | now apply occurs_prefix]. }
  assert (Hx : occurs_in_order (subcards (block_card (trim x))) x)
    by (apply occurs_trim, block_card_occurs).
  replace (match l with [] => x | _ :: _ => x ++ [LF] ++ join [LF] l end)
    with (x ++ match l with [] => [] | _ :: _ => [LF] ++ join [LF] l end)
    by (destruct l; now rewrite ?app_nil_r).
  destruct (truthy (trim x)).
  - cbn [flat_map]. now apply occurs_app.
  - now apply occurs_prefix.
Qed.

Lemma digest_cards_occur (md : jsstring) :
  occurs_in_order (flat_map subcards (digest_cards md)) md.
Proof.
  apply occurs_trim. unfold digest_cards, story_blocks.
  destruct (truthy (trim md)); [|constructor].
  rewrite flat_map_concat_map, map_map, <- flat_map_concat_map.
  destruct (Nat.ltb 1 _).
  - rewrite <- (join_split_when _ (lf_before_LF header_ahead) (trim md)) at 2.
    apply blocks_occur.
  - cbn [flat_map]. rewrite app_nil_r. apply block_card_occurs.
Qed.

Lemma digest_cards_occur_each (md : jsstring) :
  Forall (fun c => occurs_in_order (subcards c) md) (digest_cards md).
Proof.
  apply Forall_forall. intros c Hc.
  destruct (in_split _ _ Hc) as [l1 [l2 E]].
  pose proof (digest_cards_occur md) as H. rewrite E in H.
  rewrite flat_map_app in H. cbn [flat_map] in H.
  apply occurs_skip in H. now apply occurs_firstn in H.
Qed.

(** ** Global replacement *)

Lemma replace_go_skip (r : re) (tmpl : list titem) (k : nat) :
  forall s pos,
    k <= List.length s ->
    replace_go r tmpl pos k s = replace_go r tmpl (pos + k) 0 (skipn k s).
Proof.
  induction k as [|k IH]; intros s pos Hk.
  - now rewrite Nat.add_0_r.
  - destruct s as [|c t]; [simpl in Hk; lia|].
    cbn [replace_go]. rewrite IH by (simpl in Hk; lia).
    now rewrite Nat.add_succ_r.
Qed.

(** One step of the scan, for a pattern whose matches are not empty. *)
Lemma replace_go_step (r : re) (tmpl : list titem) :
  (forall pos s n caps,
      exec r pos s = Some (n, caps) -> 1 <= n <= List.length s) ->
  forall pos s,
    replace_go r tmpl pos 0 s =
    match exec r pos s with
    | Some (n, caps) =>
        subst tmpl caps ++ replace_go r tmpl (pos + n) 0 (skipn n s)
    | None =>
        match s with
        | [] => []
        | c :: t => c :: replace_go r tmpl (S pos) 0 t
        end
    end.
Proof.
  intros Hn pos s. destruct s as [|c t]; cbn [replace_go].
  - destruct (exec r pos []) as [[n caps]|] eqn:E; [|reflexivity].
    apply Hn in E. simpl in E. lia.
  - destruct (exec r pos (c :: t)) as [[n caps]|] eqn:E; [|reflexivity].
    apply Hn in E. destruct n as [|k]; [lia|].
    rewrite replace_go_skip by (simpl in E; lia).
    now rewrite Nat.add_succ_r.
Qed.

Lemma ws_lf_shape (s : jsstring) (n : nat) :
  ws_lf s = Some n ->
  exists w rest,
    s = w ++ [LF] ++ rest /\ n = S (List.length w) /\ all_ws w.
Proof.
  revert n. induction s as [|c t IH]; intros n; simpl; [discriminate|].
  destruct (is_ws c) eqn:Hc; [|discriminate].
  destruct (ws_lf t) as [m|].
  - intros [= <-]. destruct (IH m eq_refl) as [w [rest [E [Em Hw]]]].
    exists (c :: w), rest. subst t m. repeat split.
    now apply Forall_cons.
  - destruct (N.eqb c LF) eqn:Ec; [|discriminate].
    intros [= <-]. apply N.eqb_eq in Ec. subst c.
    exists [], t. repeat split. constructor.
Qed.

Lemma bold_at_shape (t : jsstring) (L : jsstring) (k : nat) :
  bold_at t = Some (L, k) ->
  exists w rest,
    t = [STAR; STAR] ++ L ++ [STAR; STAR; COLON] ++ w ++ rest /\
    List.length w = k /\ all_ws w /\
    Forall (fun c => label_char c = true) L.
Proof.
  unfold bold_at. destruct t as [|a [|b t]]; try discriminate.
  destruct (N.eqb a STAR) eqn:Ea; [|discriminate].
  destruct (N.eqb b STAR) eqn:Eb; [|discriminate]. cbn [andb].
  apply N.eqb_eq in Ea, Eb. subst a b.
  set (P := prefix_upto 60 label_char t).
  destruct (Nat.leb 3 (List.length P)); [|discriminate].
  pose proof (prefix_upto_split label_char 60 t) as Et. fold P in Et.
  destruct (skipn (List.length P) t) as [|x [|y [|z w]]]; try discriminate.
  destruct (N.eqb x STAR) eqn:Ex; [|discriminate].
  destruct (N.eqb y STAR) eqn:Ey; [|discriminate].
  destruct (N.eqb z COLON) eqn:Ez; [|discriminate]. cbn [andb].
  apply N.eqb_eq in Ex, Ey, Ez. subst x y z.
  intros [= <- <-].
  exists (prefix_of is_ws w), (skipn (List.length (prefix_of is_ws w)) w).
  repeat split.
  - cbn [app]. do 2 f_equal. rewrite Et at 1. f_equal. do 3 f_equal.
    apply prefix_of_split.
  - apply prefix_of_Forall.
  - apply prefix_upto_Forall.
Qed.

Lemma heading_at_shape (t : jsstring) (X : jsstring) (k : nat) :
  heading_at t = Some (X, k) ->
  exists w rest c X',
    t = X ++ [COLON] ++ w ++ [LF] ++ rest /\
    k = S (List.length w) /\ all_ws w /\
    X = c :: X' /\ upper c = true /\
    Forall (fun c => heading_char c = true) X'.
Proof.
  unfold heading_at. destruct t as [|c t]; [discriminate|].
  destruct (upper c) eqn:Hc; [|discriminate].
  set (P := prefix_upto 80 heading_char t).
  destruct (Nat.leb 4 (List.length P)); [|discriminate].
  pose proof (prefix_upto_split heading_char 80 t) as Et. fold P in Et.
  destruct (skipn (List.length P) t) as [|z u]; [discriminate|].
  destruct (N.eqb z COLON) eqn:Ez; [|discriminate].
  apply N.eqb_eq in Ez. subst z.
  destruct (ws_lf u) as [n|] eqn:En; [|discriminate].
  intros [= <- <-].
  destruct (ws_lf_shape _ _ En) as [w [rest [Eu [Ek Hw]]]].
  exists w, rest, c, P. repeat split; try assumption.
  - cbn [app]. f_equal. rewrite Et at 1. f_equal. now rewrite Eu.
  - apply prefix_upto_Forall.
Qed.

Lemma with_line_start_shape (b : bool)
  (body : jsstring -> option (jsstring * nat)) (extra : nat)
  (s : jsstring) (n : nat) (caps : list (nat * jsstring)) :
  with_line_start b body extra s = Some (n, caps) ->
  exists g t L k,
    s = g ++ t /\ body t = Some (L, k) /\
    n = List.length g + (List.length L + extra + k) /\
    caps = [(2%nat, L); (1%nat, g)] /\
    (g = [] /\ b = true \/ g = [LF]).
Proof.
  unfold with_line_start.
  destruct (if b then body s else None) as [[L k]|] eqn:E1.
  - intros [= <- <-]. destruct b; [|discriminate].
    exists [], s, L, k. repeat split; auto.
  - destruct s as [|c t]; [discriminate|].
    destruct (N.eqb c LF) eqn:Ec; [|discriminate].
    apply N.eqb_eq in Ec. subst c.
    destruct (body t) as [[L k]|] eqn:E2; [|discriminate].
    intros [= <- <-]. exists [LF], t, L, k. repeat split; auto.
Qed.

(** A match of the bold pseudo-header and what replaces it. *)
Lemma bold_match (pos : nat) (s : jsstring) (n : nat)
  (caps : list (nat * jsstring)) :
  exec bold_header pos s = Some (n, caps) ->
  exists g L w rest,
    s = g ++ [STAR; STAR] ++ L ++ [STAR; STAR; COLON] ++ w ++ rest /\
    n = List.length (g ++ [STAR; STAR] ++ L ++ [STAR; STAR; COLON] ++ w) /\
    subst bold_header_subst caps = g ++ js "### " ++ L ++ [LF; LF] /\
    (g = [] /\ pos = 0 \/ g = [LF]) /\
    all_ws w /\ Forall (fun c => label_char c = true) L.
Proof.
  rewrite exec_bold_header. intros H.
  apply with_line_start_shape in H
    as [g [t [L [k [Es [Eb [En [Ec Hg]]]]]]]].
  apply bold_at_shape in Eb as [w [rest [Et [Ek [Hw HL]]]]].
  exists g, L, w, rest. subst s t n caps k. repeat split; try assumption.
  - rewrite !length_app. simpl. lia.
  - destruct Hg as [[Hg Hb]|Hg]; [left|now right].
    split; [assumption | now apply Nat.eqb_eq].
Qed.

(** A match of the title-case pseudo-header and what replaces it. *)
Lemma title_case_match (pos : nat) (s : jsstring) (n : nat)
  (caps : list (nat * jsstring)) :
  exec title_case_header pos s = Some (n, caps) ->
  exists g X w rest c X',
    s = g ++ X ++ [COLON] ++ w ++ [LF] ++ rest /\
    n = List.length (g ++ X ++ [COLON] ++ w ++ [LF]) /\
    subst title_case_header_subst caps = g ++ js "### " ++ X ++ [LF] /\
    (g = [] /\ pos = 0 \/ g = [LF]) /\
    all_ws w /\
    X = c :: X' /\ upper c = true /\
    Forall (fun c => heading_char c = true) X'.
Proof.
  rewrite exec_title_case_header. intros H.
  apply with_line_start_shape in H
    as [g [t [X [k [Es [Eb [En [Ec Hg]]]]]]]].
  apply heading_at_shape in Eb
    as [w [rest [c [X' [Et [Ek [Hw [EX [Hc HX]]]]]]]]].
  exists g, X, w, rest, c, X'. subst s t n caps k.
  repeat split; try assumption.
  - rewrite !length_app. simpl. lia.
  - destruct Hg as [[Hg Hb]|Hg]; [left|now right].
    split; [assumption | now apply Nat.eqb_eq].
Qed.

Lemma bold_match_bounds (pos : nat) (s : jsstring) (n : nat)
  (caps : list (nat * jsstring)) :
  exec bold_header pos s = Some (n, caps) -> 1 <= n <= List.length s.
Proof.
  intros H. apply bold_match in H
    as [g [L [w [rest [Es [En _]]]]]].
  subst s n. rewrite !length_app. simpl. lia.
Qed.

Lemma title_case_match_bounds (pos : nat) (s : jsstring) (n : nat)
  (caps : list (nat * jsstring)) :
  exec title_case_header pos s = Some (n, caps) -> 1 <= n <= List.length s.
Proof.
  intros H. apply title_case_match in H
    as [g [X [w [rest [c [X' [Es [En [_ [_ [_ [EX _]]]]]]]]]]]].
  subst s n X. rewrite !length_app. simpl. lia.
Qed.

(** ** Length of the normalized text *)











(** ** Lines *)

Lemma split_on_nonempty (c : N) (s : jsstring) : split_on c s <> [].
Proof. rewrite split_on_when. apply split_when_nonempty. Qed.

Lemma split_on_no_sep (u h : jsstring) :
  In h (split_on LF u) -> ~ In LF h.
Proof.
  revert h. induction u as [|x t IH]; intros h; cbn [split_on].
  - intros [<-|[]]. intros [].
  - destruct (N.eqb x LF) eqn:Ex.
    + intros [<-|H]; [intros [] | now apply IH].
    + destruct (split_on LF t) as [|p ps] eqn:Es.
      * now apply split_on_nonempty in Es.
      * intros [<-|H].
        -- intros [E|Hin].
           ++ subst x. discriminate.
           ++ apply (IH p); [now left | exact Hin].
        -- apply IH. now right.
Qed.

Lemma split_on_app_sep (a rest : jsstring) :
  split_on LF (a ++ LF :: rest) = split_on LF a ++ split_on LF rest.
Proof.
  induction a as [|x a IH]; [reflexivity|].
  cbn [app split_on]. rewrite IH.
  destruct (N.eqb x LF); [reflexivity|].
  destruct (split_on LF a) as [|p ps] eqn:Es; [|reflexivity].
  now apply split_on_nonempty in Es.
Qed.

Lemma split_on_no_LF (h : jsstring) :
  ~ In LF h -> split_on LF h = [h].
Proof.
  induction h as [|x h IH]; intros H; [reflexivity|].
  cbn [split_on]. destruct (N.eqb x LF) eqn:Ex.
  - apply N.eqb_eq in Ex. subst x. exfalso. apply H. now left.
  - rewrite IH; [reflexivity|]. intros Hin. apply H. now right.
Qed.

Lemma join_line_at (l1 : list jsstring) (h : jsstring)
  (l2 : list jsstring) :
  line_at h (join [LF] (l1 ++ h :: l2)).
Proof.
  induction l1 as [|x l1 IH].
  - exists [], (match l2 with [] => [] | _ :: _ => [LF] ++ join [LF] l2 end).
    cbn [app join]. destruct l2; repeat split; auto.
    + now rewrite app_nil_r.
    + right. eauto.
  - destruct IH as [a [b [E [Ha Hb]]]].
    exists (x ++ [LF] ++ a), b. repeat split; [|
      |exact Hb].
    + change ((x :: l1) ++ h :: l2) with (x :: (l1 ++ h :: l2)).
      cbn [join]. destruct (l1 ++ h :: l2) eqn:El.
      * now destruct l1.
      * rewrite E. now rewrite <- !app_assoc.
    + right. destruct Ha as [->|[a0 ->]].
      * exists x. now rewrite app_nil_r.
      * exists (x ++ [LF] ++ a0). now rewrite <- !app_assoc.
Qed.

(** The lines of a text are the strings that stand between two line
    boundaries and hold no line feed. *)
Lemma lines_line_at (h u : jsstring) :
  In h (lines u) <-> line_at h u /\ ~ In LF h.
Proof.
  unfold lines. split.
  - intros H. split; [|now apply split_on_no_sep in H].
    destruct (in_split _ _ H) as [l1 [l2 E]].
    assert (Eu : join [LF] (split_on LF u) = u).
    { rewrite split_on_when. apply join_split_when.
      intros c t Hc. now apply N.eqb_eq in Hc. }
    rewrite <- Eu, E. apply join_line_at.
  - intros [[a [b [E [Ha Hb]]]] Hh]. subst u.
    assert (Hhb : In h (split_on LF (h ++ b))).
    { destruct Hb as [->|[b0 ->]].
      - rewrite app_nil_r, (split_on_no_LF _ Hh). now left.
      - rewrite split_on_app_sep, (split_on_no_LF _ Hh). now left. }
    destruct Ha as [->|[a0 ->]]; [exact Hhb|].
    rewrite <- app_assoc. cbn [app]. rewrite split_on_app_sep.
    apply in_or_app. now right.
Qed.

(** ** A rewriting pass keeps the lines that begin with a header marker *)

Lemma hash_not_ws : is_ws HASH = false.
Proof. reflexivity. Qed.

Lemma all_ws_no_hash (w a b : jsstring) : all_ws w -> w <> a ++ HASH :: b.
Proof.
  intros Hw E. subst w. apply Forall_app in Hw as [_ Hw].
  apply Forall_inv in Hw. discriminate.
Qed.

(** A match cannot run across a line feed that is followed by a header
    marker. *)
Lemma match_stops_at_header (g core tail a0 l : jsstring) (c : N)
  (core' : jsstring) :
  g ++ core ++ tail = a0 ++ [LF] ++ HASH :: l ->
  g = [] \/ g = [LF] ->
  core = c :: core' -> c <> HASH ->
  ~ In LF core -> all_ws tail -> False.
Proof.
  intros E Hg Ec Hc Hcore Htail.
  rewrite app_assoc in E.
  change (a0 ++ [LF] ++ HASH :: l) with (a0 ++ LF :: HASH :: l) in E.
  apply app_eq_app in E as [l0 [[E1 E2]|[E1 E2]]].
  - destruct l0 as [|y l0].
    + cbn [app] in E2.
      apply (all_ws_no_hash tail [LF] l Htail). now rewrite <- E2.
    + cbn [app] in E2. injection E2 as Ey E2. subst y.
      destruct l0 as [|z l0].
      * (* the match ends with the line feed *)
        cbn [app] in E2. apply (all_ws_no_hash tail [] l Htail).
        now rewrite <- E2.
      * cbn [app] in E2. injection E2 as Ez E2. subst z.
        (* the header marker lies in [g ++ core] *)
        destruct Hg as [Hg|Hg]; subst g.
        -- cbn [app] in E1. apply Hcore. rewrite E1.
           apply in_or_app. right. now left.
        -- destruct a0 as [|x a0].
           ++ cbn [app] in E1. injection E1 as E1.
              rewrite Ec in E1. injection E1 as E1 _. now apply Hc.
           ++ cbn [app] in E1. injection E1 as _ E1.
              apply Hcore. rewrite E1. apply in_or_app. right. now left.
  - (* the line feed lies in the whitespace taken at the end *)
    apply (all_ws_no_hash tail (l0 ++ [LF]) l Htail).
    rewrite E2. now rewrite <- app_assoc.
Qed.

Lemma ends_with_LF_suffix (m l a0 : jsstring) :
  m ++ l = a0 ++ [LF] -> l = [] \/ exists l0, l = l0 ++ [LF].
Proof.
  intros E. destruct l as [|y l']; [now left|]. right.
  destruct (@exists_last _ (y :: l')) as [l0 [z El]]; [discriminate|].
  rewrite El in *. rewrite app_assoc in E.
  apply app_inj_tail in E as [_ ->]. eauto.
Qed.

Section LinePass.

Variable r : re.
Variable tmpl : list titem.

Hypothesis match_shape : forall pos s n caps,
  exec r pos s = Some (n, caps) ->
  exists g core tail rest out,
    s = g ++ core ++ tail ++ rest /\
    n = List.length (g ++ core ++ tail) /\
    subst tmpl caps = g ++ out ++ [LF] /\
    (g = [] /\ pos = 0 \/ g = [LF]) /\
    (exists c core', core = c :: core' /\ c <> HASH) /\
    ~ In LF core /\ all_ws tail.

Lemma pass_bounds (pos : nat) (s : jsstring) (n : nat)
  (caps : list (nat * jsstring)) :
  exec r pos s = Some (n, caps) -> 1 <= n <= List.length s.
Proof.
  intros H. apply match_shape in H
    as [g [core [tail [rest [out [Es [En [_ [_ [[c [core' [Ec _]]] _]]]]]]]]]].
  subst s n core. rewrite !length_app. simpl. lia.
Qed.

Lemma pass_step (pos : nat) (s : jsstring) :
  replace_go r tmpl pos 0 s =
  match exec r pos s with
  | Some (n, caps) =>
      subst tmpl caps ++ replace_go r tmpl (pos + n) 0 (skipn n s)
  | None =>
      match s with
      | [] => []
      | c :: t => c :: replace_go r tmpl (S pos) 0 t
      end
  end.
Proof. apply replace_go_step. exact pass_bounds. Qed.

Lemma no_match_at_hash (pos : nat) (t : jsstring) :
  exec r pos (HASH :: t) = None.
Proof.
  destruct (exec r pos (HASH :: t)) as [[n caps]|] eqn:E; [|reflexivity].
  exfalso. apply match_shape in E
    as [g [core [tail [rest [out [Es [_ [_ [Hg [[c [core' [Ec Hc]]] _]]]]]]]]]].
  subst core. destruct Hg as [[Hg _]|Hg]; subst g; cbn [app] in Es.
  - injection Es as Es _. now apply Hc.
  - discriminate Es.
Qed.

Lemma no_match_inside_line (pos : nat) (x : N) (t : jsstring) :
  pos <> 0 -> x <> LF -> exec r pos (x :: t) = None.
Proof.
  intros Hpos Hx.
  destruct (exec r pos (x :: t)) as [[n caps]|] eqn:E; [|reflexivity].
  exfalso. apply match_shape in E
    as [g [core [tail [rest [out [Es [_ [_ [Hg _]]]]]]]]].
  destruct Hg as [[_ Hp]|Hg]; [contradiction|]. subst g.
  cbn [app] in Es. injection Es as Es _. now apply Hx.
Qed.

Lemma pass_copy (x : jsstring) :
  ~ In LF x ->
  forall pos b,
    pos <> 0 ->
    replace_go r tmpl pos 0 (x ++ b) =
    x ++ replace_go r tmpl (pos + List.length x) 0 b.
Proof.
  induction x as [|c x IH]; intros Hx pos b Hpos.
  - cbn [app List.length]. now rewrite Nat.add_0_r.
  - cbn [app]. rewrite pass_step, no_match_inside_line; trivial.
    + rewrite IH; [|intros H; apply Hx; now right | lia].
      cbn [List.length]. now rewrite Nat.add_succ_r.
    + intros ->. apply Hx. now left.
Qed.

Lemma pass_header (h' b : jsstring) (pos : nat) :
  ~ In LF (HASH :: h') ->
  replace_go r tmpl pos 0 ((HASH :: h') ++ b) =
  (HASH :: h') ++
  replace_go r tmpl (pos + List.length (HASH :: h')) 0 b.
Proof.
  intros Hh. cbn [app]. rewrite pass_step, no_match_at_hash.
  rewrite pass_copy; [|intros H; apply Hh; now right | lia].
  cbn [List.length]. now rewrite Nat.add_succ_r.
Qed.

Lemma pass_tail (pos : nat) (b : jsstring) :
  pos <> 0 ->
  b = [] \/ (exists b0, b = LF :: b0) ->
  replace_go r tmpl pos 0 b = [] \/
  exists b1, replace_go r tmpl pos 0 b = LF :: b1.
Proof.
  intros Hpos Hb. rewrite pass_step.
  destruct (exec r pos b) as [[n caps]|] eqn:E.
  - right. apply match_shape in E
      as [g [core [tail [rest [out [_ [_ [Eo [Hg _]]]]]]]]].
    destruct Hg as [[_ Hp]|Hg]; [contradiction|]. subst g.
    rewrite Eo. cbn [app]. eauto.
  - destruct Hb as [->|[b0 ->]]; [now left | right; eauto].
Qed.

Lemma pass_prefix (n : nat) :
  forall a, List.length a <= n ->
  forall pos t,
    a = [] \/ (exists a0, a = a0 ++ [LF]) ->
    exists a' pos',
      replace_go r tmpl pos 0 (a ++ HASH :: t) =
      a' ++ replace_go r tmpl pos' 0 (HASH :: t) /\
      (a' = [] /\ a = [] \/ exists a0', a' = a0' ++ [LF]).
Proof.
  induction n as [|n IH]; intros a Hn pos t Ha.
  - destruct a; [|simpl in Hn; lia].
    exists [], pos. split; [reflexivity | now left].
  - destruct a as [|x a1].
    { exists [], pos. split; [reflexivity | now left]. }
    destruct Ha as [Ha|[a0 Ha]]; [discriminate|].
    rewrite pass_step.
    destruct (exec r pos ((x :: a1) ++ HASH :: t)) as [[m caps]|] eqn:E.
    + apply match_shape in E
        as [g [core [tail [rest [out
              [Es [Em [Eo [Hg [[c [core' [Ec Hc]]] [Hcore Htail]]]]]]]]]]].
      assert (Hsk : skipn m ((x :: a1) ++ HASH :: t) = rest).
      { rewrite Es, Em, !app_assoc. apply skipn_length_app. }
      rewrite Hsk, Eo.
      rewrite !app_assoc in Es. rewrite <- (app_assoc g core tail) in Es.
      apply app_eq_app in Es as [l [[E1 E2]|[E1 E2]]].
      * (* the match ends inside the prefix *)
        assert (Hl : l = [] \/ exists l0, l = l0 ++ [LF])
          by (rewrite Ha in E1; symmetry in E1;
              now apply ends_with_LF_suffix in E1).
        destruct (IH l) with (pos := pos + m) (t := t)
          as [l' [pos' [El Hl']]]; trivial.
        { apply (f_equal (@List.length N)) in E1.
          rewrite !length_app in E1. simpl in *. subst core.
          simpl in E1. lia. }
        exists ((g ++ out ++ [LF]) ++ l'), pos'. rewrite E2, El.
        split; [now rewrite <- !app_assoc|]. right.
        destruct Hl' as [[-> _]|[l0' ->]].
        -- exists (g ++ out). now rewrite app_nil_r, <- !app_assoc.
        -- exists ((g ++ out ++ [LF]) ++ l0'). now rewrite <- !app_assoc.
      * destruct l as [|y l].
        -- (* the match ends with the prefix *)
           cbn [app] in E2. rewrite <- E2.
           exists (g ++ out ++ [LF]), (pos + m). split; [reflexivity|].
           right. exists (g ++ out). now rewrite <- !app_assoc.
        -- (* the match would take the header marker *)
           exfalso. cbn [app] in E2. injection E2 as Ey E2. subst y.
           rewrite Ha in E1.
           eapply (match_stops_at_header g core tail a0 l); eauto.
           ++ rewrite E1. now rewrite <- !app_assoc.
           ++ destruct Hg as [[Hg _]|Hg]; auto.
    + cbn [app].
      destruct a1 as [|y a1].
      * destruct a0 as [|z [|z' a0]]; try discriminate.
        injection Ha as ->.
        exists [LF], (S pos). split; [reflexivity|]. right. now exists [].
      * assert (Ha1 : exists a1', y :: a1 = a1' ++ [LF]).
        { destruct a0 as [|z a0]; [discriminate|].
          injection Ha as _ Ha. eauto. }
        destruct (IH (y :: a1)) with (pos := S pos) (t := t)
          as [l' [pos' [El Hl']]]; [simpl in *; lia | now right |].
        exists (x :: l'), pos'. rewrite El. split; [reflexivity|].
        right. destruct Hl' as [[_ Hl']|[l0' ->]]; [discriminate|].
        now exists (x :: l0').
Qed.

(** The pass keeps a line that begins with a header marker. *)
Lemma pass_line_at (h' u : jsstring) (pos : nat) :
  ~ In LF (HASH :: h') ->
  line_at (HASH :: h') u ->
  line_at (HASH :: h') (replace_go r tmpl pos 0 u).
Proof.
  intros Hh [a [b [E [Ha Hb]]]]. subst u.
  destruct (pass_prefix _ a (le_n _) pos (h' ++ b) Ha)
    as [a' [pos' [Ea Ha']]].
  change (a ++ (HASH :: h') ++ b) with (a ++ HASH :: h' ++ b).
  rewrite Ea. change (HASH :: h' ++ b) with ((HASH :: h') ++ b).
  rewrite pass_header by exact Hh.
  exists a', (replace_go r tmpl (pos' + List.length (HASH :: h')) 0 b).
  split; [reflexivity|]. split.
  - destruct Ha' as [[-> _]|Ha']; [now left | now right].
  - apply pass_tail; [simpl; lia | exact Hb].
Qed.

End LinePass.

Lemma Forall_not_in (p : N -> bool) (c : N) (l : jsstring) :
  p c = false -> Forall (fun x => p x = true) l -> ~ In c l.
Proof.
  intros Hc Hl Hin. rewrite Forall_forall in Hl.
  apply Hl in Hin. congruence.
Qed.

Lemma bold_match_shape (pos : nat) (s : jsstring) (n : nat)
  (caps : list (nat * jsstring)) :
  exec bold_header pos s = Some (n, caps) ->
  exists g core tail rest out,
    s = g ++ core ++ tail ++ rest /\
    n = List.length (g ++ core ++ tail) /\
    subst bold_header_subst caps = g ++ out ++ [LF] /\
    (g = [] /\ pos = 0 \/ g = [LF]) /\
    (exists c core', core = c :: core' /\ c <> HASH) /\
    ~ In LF core /\ all_ws tail.
Proof.
  intros H. apply bold_match in H
    as [g [L [w [rest [Es [En [Eo [Hg [Hw HL]]]]]]]]].
  exists g, ([STAR; STAR] ++ L ++ [STAR; STAR; COLON]), w, rest,
    (js "### " ++ L ++ [LF]).
  repeat split; trivial.
  - rewrite Es. now rewrite <- !app_assoc.
  - rewrite En. now rewrite <- !app_assoc.
  - rewrite Eo. now rewrite <- !app_assoc.
  - exists STAR, (STAR :: L ++ [STAR; STAR; COLON]).
    split; [reflexivity | discriminate].
  - intros Hin. cbn [app] in Hin.
    destruct Hin as [E|[E|Hin]]; try discriminate.
    apply in_app_or in Hin as [Hin|Hin].
    + revert Hin. now apply (Forall_not_in label_char).
    + destruct Hin as [E|[E|[E|[]]]]; discriminate.
Qed.

Lemma upper_heading_char (c : N) : upper c = true -> heading_char c = true.
Proof. intros H. unfold heading_char. now rewrite H. Qed.

Lemma title_case_match_shape (pos : nat) (s : jsstring) (n : nat)
  (caps : list (nat * jsstring)) :
  exec title_case_header pos s = Some (n, caps) ->
  exists g core tail rest out,
    s = g ++ core ++ tail ++ rest /\
    n = List.length (g ++ core ++ tail) /\
    subst title_case_header_subst caps = g ++ out ++ [LF] /\
    (g = [] /\ pos = 0 \/ g = [LF]) /\
    (exists c core', core = c :: core' /\ c <> HASH) /\
    ~ In LF core /\ all_ws tail.
Proof.
  intros H. apply title_case_match in H
    as [g [X [w [rest [c [X' [Es [En [Eo [Hg [Hw [EX [Hc HX]]]]]]]]]]]]].
  exists g, (X ++ [COLON]), (w ++ [LF]), rest, (js "### " ++ X).
  repeat split; trivial.
  - rewrite Es. now rewrite <- !app_assoc.
  - rewrite En. now rewrite <- !app_assoc.
  - exists c, (X' ++ [COLON]). subst X.
    split; [reflexivity | intros ->; discriminate].
  - intros Hin. apply in_app_or in Hin as [Hin|Hin].
    + revert Hin. apply (Forall_not_in heading_char); [reflexivity|].
      subst X. constructor; [now apply upper_heading_char | exact HX].
    + destruct Hin as [E|[]]. discriminate.
  - apply Forall_app. split; [exact Hw | now repeat constructor].
Qed.

(** ** Trimming keeps them, up to the whitespace at the end of the text *)

Lemma trimStart_app_keep (a rest : jsstring) :
  trimStart a <> [] -> trimStart (a ++ rest) = trimStart a ++ rest.
Proof.
  induction a as [|c a IH]; intros H; [contradiction|].
  cbn [app trimStart] in *. destruct (is_ws c); [now apply IH | reflexivity].
Qed.

Lemma trimEnd_no_LF (h : jsstring) : ~ In LF h -> ~ In LF (trimEnd h).
Proof.
  intros H Hin. apply H.
  destruct (trimEnd_split h) as [b [E _]]. rewrite E.
  apply in_or_app. now left.
Qed.

Lemma header_line_hash (h : jsstring) :
  header_line h = true -> exists h', h = HASH :: h'.
Proof.
  unfold header_line. destruct h as [|a [|b [|c [|d h]]]]; try discriminate.
  intros H. apply andb_true_iff in H as [H _].
  apply andb_true_iff in H as [H _]. apply andb_true_iff in H as [H _].
  apply N.eqb_eq in H. subst a. eauto.
Qed.

Lemma forallb_all_ws (s : jsstring) : forallb is_ws s = true <-> all_ws s.
Proof.
  unfold all_ws. rewrite forallb_forall, Forall_forall. reflexivity.
Qed.

(** ** Text that is not blank stays so *)

Section NonBlank.

Variable r : re.
Variable tmpl : list titem.

Hypothesis match_marked : forall pos s n caps,
  exec r pos s = Some (n, caps) ->
  1 <= n <= List.length s /\ 1 <= nws (subst tmpl caps).

Lemma pass_nonblank (n : nat) :
  forall s, List.length s <= n ->
  forall pos, 1 <= nws s -> 1 <= nws (replace_go r tmpl pos 0 s).
Proof.
  induction n as [|n IH]; intros s Hn pos Hs.
  - destruct s; [unfold nws in Hs; simpl in Hs; lia | simpl in Hn; lia].
  - rewrite (replace_go_step r tmpl (fun p u m c H =>
               proj1 (match_marked p u m c H))).
    destruct (exec r pos s) as [[m caps]|] eqn:E.
    + apply match_marked in E as [_ E]. rewrite nws_app. lia.
    + destruct s as [|c t]; [unfold nws in Hs; simpl in Hs; lia|].
      rewrite nws_cons in *. destruct (is_ws c); [|lia].
      apply IH; [simpl in Hn; lia | lia].
Qed.

End NonBlank.

Lemma bold_match_marked (pos : nat) (s : jsstring) (n : nat)
  (caps : list (nat * jsstring)) :
  exec bold_header pos s = Some (n, caps) ->
  1 <= n <= List.length s /\ 1 <= nws (subst bold_header_subst caps).
Proof.
  intros H. split; [eapply bold_match_bounds; eassumption|].
  apply bold_match in H as [g [L [w [rest [_ [_ [Eo _]]]]]]].
  rewrite Eo, !nws_app. change (nws (js "### ")) with 3. lia.
Qed.

Lemma title_case_match_marked (pos : nat) (s : jsstring) (n : nat)
  (caps : list (nat * jsstring)) :
  exec title_case_header pos s = Some (n, caps) ->
  1 <= n <= List.length s /\ 1 <= nws (subst title_case_header_subst caps).
Proof.
  intros H. split; [eapply title_case_match_bounds; eassumption|].
  apply title_case_match in H
    as [g [X [w [rest [c [X' [_ [_ [Eo _]]]]]]]]].
  rewrite Eo, !nws_app. change (nws (js "### ")) with 3. lia.
Qed.

Lemma nws_zero_all_ws (s : jsstring) : nws s = 0 -> all_ws s.
Proof.
  induction s as [|c s IH]; [constructor|].
  rewrite nws_cons. destruct (is_ws c) eqn:Hc; [|discriminate].
  intros H. apply Forall_cons; [exact Hc | now apply IH].
Qed.

Lemma prettifyMarkdown_blank (s : jsstring) :
  all_ws (prettifyMarkdown s) -> all_ws s.
Proof.
  intros H. apply nws_all_ws in H. apply nws_zero_all_ws.
  unfold prettifyMarkdown in H.
  destruct (truthy s); cbn [negb] in H; [|exact H].
  destruct (nws s) as [|k] eqn:Es; [reflexivity|]. exfalso.
  unfold replace_all in H.
  pose proof (pass_nonblank _ _ bold_match_marked _ (trim s) (le_n _) 0)
    as H1.
  rewrite nws_trim, Es in H1. specialize (H1 ltac:(lia)).
  pose proof (pass_nonblank _ _ title_case_match_marked _ _ (le_n _) 0 H1)
    as H2.
  lia.
Qed.

(** ** The fallback title *)

Lemma trimmed_suffix_nws (x y z : jsstring) :
  trim x = x -> x = y ++ z -> z <> [] -> 1 <= nws z.
Proof.
  intros Hx E Hz.
  destruct (@exists_last _ z Hz) as [z0 [l El]]. subst z.
  rewrite E, app_assoc in Hx. apply trim_last in Hx.
  rewrite nws_app, nws_cons, Hx. lia.
Qed.

Lemma strip_marker_nonblank (x : jsstring) :
  trim x = x -> x <> [] -> 1 <= nws (strip_marker x).
Proof.
  intros Hx Hne.
  assert (H0 : 1 <= nws x)
    by (apply (trimmed_suffix_nws x [] x); auto).
  unfold strip_marker.
  destruct x as [|a t]; [contradiction|].
  destruct (N.eqb a HASH); [|exact H0].
  destruct t as [|d t']; [exact H0|].
  destruct (N.eqb d HASH).
  - destruct t' as [|w u]; [exact H0|].
    destruct (is_ws w); [|exact H0].
    rewrite nws_trimStart.
    apply (trimmed_suffix_nws (a :: d :: w :: u) [a; d] (w :: u));
      auto; discriminate.
  - destruct (is_ws d); [|exact H0].
    rewrite nws_trimStart.
    apply (trimmed_suffix_nws (a :: d :: t') [a] (d :: t'));
      auto; discriminate.
Qed.

Lemma raw_title_nonempty (block : jsstring) :
  trim block = block -> block <> [] -> raw_title block <> [].
Proof.
  intros Hb Hne. unfold raw_title.
  destruct block as [|c r]; [contradiction|].
  pose proof (trim_head _ _ _ Hb) as Hc.
  assert (Hl : exists p, hd [] (split_on LF (c :: r)) = c :: p).
  { cbn [split_on]. destruct (N.eqb c LF) eqn:E.
    - apply N.eqb_eq in E. subst c. discriminate.
    - destruct (split_on LF r); cbn [hd]; eauto. }
  destruct Hl as [p ->].
  assert (Hx : trim (c :: p) <> []).
  { intros E. apply trim_nil_all_ws in E. apply Forall_inv in E. congruence. }
  pose proof (strip_marker_nonblank _ (trim_fixed (c :: p)) Hx) as H.
  rewrite <- nws_trim in H. intros E. rewrite E in H.
  unfold nws in H. simpl in H. lia.
Qed.

Lemma story_blocks_trimmed (text : jsstring) :
  trim text = text -> text <> [] ->
  Forall (fun b => trim b = b /\ b <> []) (story_blocks text).
Proof.
  intros Ht Hne. unfold story_blocks.
  destruct (Nat.ltb 1 _).
  - apply Forall_forall. intros b Hb.
    apply filter_In in Hb as [Hb Hn].
    apply in_map_iff in Hb as [p [<- _]].
    split; [apply trim_fixed|]. intros E. rewrite E in Hn. discriminate.
  - now repeat constructor.
Qed.

(** The title of a returned card is never the fallback of an empty title:
    a block is trimmed and not empty, so its first line holds text, and
    the marker pattern leaves some of it. *)
Lemma fallback_title_unreachable (md : jsstring) :
  exists blocks,
    digest_cards md = map block_card blocks /\
    Forall (fun b => raw_title b <> [] /\
                     title (block_card b) = raw_title b) blocks.
Proof.
  unfold digest_cards.
  destruct (trim md) as [|c t] eqn:E; cbn [truthy].
  - exists []. split; [reflexivity | constructor].
  - exists (story_blocks (c :: t)). split; [reflexivity|].
    eapply Forall_impl; [|apply story_blocks_trimmed].
    + intros b [Hb Hne]. pose proof (raw_title_nonempty b Hb Hne) as H.
      split; [exact H|]. unfold block_card. cbn [title].
      fold (raw_title b). now destruct (raw_title b).
    + rewrite <- E. apply trim_fixed.
    + discriminate.
Qed.

(** ** The content of the cards, exactly *)

(** The characters that are not whitespace and that the marker pattern
    takes from a line are its marker characters. *)
Lemma strip_marker_count (s : jsstring) :
  nws (strip_marker s) + marker_length s = nws s /\ marker_length s <= 2.
Proof.
  unfold strip_marker, marker_length.
  destruct s as [|c t]; [split; lia|].
  destruct (N.eqb c HASH) eqn:Ec; [|split; lia].
  apply N.eqb_eq in Ec. subst c.
  destruct t as [|d t']; [split; lia|].
  destruct (N.eqb d HASH) eqn:Ed.
  - apply N.eqb_eq in Ed. subst d.
    destruct t' as [|w u]; [split; lia|].
    destruct (is_ws w) eqn:Hw; [|split; lia].
    rewrite nws_trimStart, !(nws_cons HASH).
    change (is_ws HASH) with false. cbv iota. split; lia.
  - destruct (is_ws d) eqn:Hd; [|split; lia].
    rewrite nws_trimStart, !(nws_cons HASH).
    change (is_ws HASH) with false. cbv iota. split; lia.
Qed.

Lemma first_line_hd (block : jsstring) :
  first_line block = trim (hd [] (split_on LF block)).
Proof.
  unfold first_line. destruct (split_on LF block) as [|l ls] eqn:E;
    [|reflexivity].
  now apply split_on_nonempty in E.
Qed.

(** The card of a story block holds the characters of the block that are
    not whitespace, but for the marker taken from its first line. *)
Lemma block_card_nws_exact (block : jsstring) :
  trim block = block -> block <> [] ->
  card_nws (block_card block) + block_markers_stripped block = nws block /\
  block_markers_stripped block <= 2.
Proof.
  intros Hb Hne. unfold block_markers_stripped.
  pose proof (raw_title_nonempty block Hb Hne) as Hraw.
  rewrite first_line_hd.
  destruct (strip_marker_count (trim (hd [] (split_on LF block))))
    as [Hs Hle].
  split; [|exact Hle].
  rewrite <- (split_on_nws block).
  unfold block_card, card_nws. cbn [title body subcards].
  fold (raw_title block).
  set (lines := split_on LF block) in *.
  set (rest := trim (join [LF] (tl lines))).
  assert (Hrest : nws rest = sum_nws (tl lines))
    by (unfold rest; now rewrite nws_trim, nws_join).
  assert (Ht : nws (if truthy (raw_title block) then raw_title block
                    else TOP_STORY)
               = nws (strip_marker (trim (hd [] lines)))).
  { destruct (raw_title block) eqn:E; [contradiction|]. cbn [truthy].
    rewrite <- E. unfold raw_title. fold lines. apply nws_trim. }
  assert (Hparts :
    nws (match (if truthy rest
                then split_when (lf_before numbered_ahead) rest else [])
         with p :: _ => trim p | [] => rest end)
    + sum_nws (filter truthy (map trim
        (tl (if truthy rest
             then split_when (lf_before numbered_ahead) rest else []))))
    = nws rest).
  { destruct (truthy rest) eqn:Er.
    - pose proof (nws_split_when (lf_before numbered_ahead) rest
                    (lf_before_LF numbered_ahead)) as Hsp.
      rewrite (split_when_cons _ rest) in *. cbn [tl].
      rewrite sum_nws_trimmed, nws_trim.
      rewrite sum_nws_cons in Hsp. exact Hsp.
    - apply truthy_false in Er. rewrite Er. reflexivity. }
  rewrite (nws_trim (hd [] lines)) in Hs. lia.
Qed.

Lemma story_blocks_nws_exact (blocks : list jsstring) :
  Forall (fun b => trim b = b /\ b <> []) blocks ->
  cards_nws (map block_card blocks)
  + list_sum (map block_markers_stripped blocks) = sum_nws blocks /\
  list_sum (map block_markers_stripped blocks) <= 2 * List.length blocks.
Proof.
  induction 1 as [|b bs [Hb Hne] _ [IH1 IH2]]; [split; reflexivity|].
  destruct (block_card_nws_exact b Hb Hne) as [H1 H2].
  rewrite sum_nws_cons. unfold cards_nws in *.
  cbn [map List.length].
  change (list_sum (card_nws (block_card b) :: ?l))
    with (card_nws (block_card b) + list_sum l).
  change (list_sum (block_markers_stripped b :: ?l))
    with (block_markers_stripped b + list_sum l).
  split; lia.
Qed.

Lemma story_blocks_of_source (text : jsstring) :
  storyBlocks text = story_blocks text.
Proof. unfold storyBlocks, story_blocks. now rewrite split_story_boundary. Qed.

Lemma digest_cards_nws_exact (md : jsstring) :
  cards_nws (digest_cards md) + markers_stripped md = nws md /\
  markers_stripped md <= 2 * List.length (digest_cards md).
Proof.
  unfold digest_cards, markers_stripped. rewrite <- (nws_trim md).
  destruct (trim md) as [|c t] eqn:E; cbn [truthy]; [split; reflexivity|].
  rewrite story_blocks_of_source.
  rewrite <- (story_blocks_nws (c :: t)), length_map.
  apply story_blocks_nws_exact, story_blocks_trimmed; [|discriminate].
  rewrite <- E. apply trim_fixed.
Qed.

(** ** The length of the normalized text, exactly *)







(** ** Which header lines a second normalization trims *)

Lemma join_around (l1 : list jsstring) (h : jsstring)
  (l2 : list jsstring) :
  join [LF] (l1 ++ h :: l2) =
  (match l1 with [] => [] | _ :: _ => join [LF] l1 ++ [LF] end)
  ++ h ++ (match l2 with [] => [] | _ :: _ => LF :: join [LF] l2 end).
Proof.
  induction l1 as [|x l1 IH].
  - cbn [app join]. destruct l2; [now rewrite app_nil_r | reflexivity].
  - change ((x :: l1) ++ h :: l2) with (x :: (l1 ++ h :: l2)).
    cbn [join]. destruct (l1 ++ h :: l2) as [|y l] eqn:El.
    + now destruct l1.
    + rewrite IH. destruct l1 as [|z l1].
      * cbn [app join]. now rewrite <- !app_assoc.
      * cbn [join]. now rewrite <- !app_assoc.
Qed.

Lemma forallb_ws_join (l : list jsstring) :
  forallb is_ws (join [LF] l) = forallb (forallb is_ws) l.
Proof.
  induction l as [|x l IH]; [reflexivity|].
  cbn [join forallb]. destruct l as [|y l].
  - now rewrite andb_true_r.
  - rewrite !forallb_app, IH. reflexivity.
Qed.

Lemma forallb_ws_after (l : list jsstring) :
  forallb is_ws (match l with [] => [] | _ :: _ => LF :: join [LF] l end)
  = forallb (forallb is_ws) l.
Proof.
  destruct l as [|x l]; [reflexivity|].
  cbn [forallb]. change (is_ws LF) with true. cbn [andb].
  apply (forallb_ws_join (x :: l)).
Qed.

Lemma trimStart_keeps_line (a h' b : jsstring) :
  a = [] \/ (exists a0, a = a0 ++ [LF]) ->
  exists a',
    trimStart (a ++ (HASH :: h') ++ b) = a' ++ (HASH :: h') ++ b /\
    (a' = [] \/ exists a0, a' = a0 ++ [LF]).
Proof.
  intros Ha. destruct (trimStart a) as [|x a1] eqn:Ea.
  - apply trimStart_nil_all_ws in Ea.
    rewrite (trimStart_app_ws _ _ Ea).
    cbn [app]. rewrite (trimStart_nonws _ _ hash_not_ws).
    exists []. split; [reflexivity | now left].
  - rewrite trimStart_app_keep by (rewrite Ea; discriminate).
    rewrite Ea. exists (x :: a1). split; [reflexivity|].
    right. destruct Ha as [Ha|[a0 Ha]]; [subst a; discriminate|].
    destruct (trimStart_split a) as [w [Ew _]].
    rewrite Ea, Ha in Ew. symmetry in Ew.
    apply ends_with_LF_suffix in Ew as [Ew|Ew]; [discriminate | exact Ew].
Qed.

(** Trimming the end of a text takes whitespace from a header line only
    when nothing but whitespace follows the line. *)
Lemma trimEnd_keeps_line (a h' b : jsstring) :
  a = [] \/ (exists a0, a = a0 ++ [LF]) ->
  b = [] \/ (exists b0, b = LF :: b0) ->
  line_at (if forallb is_ws b then trimEnd (HASH :: h') else HASH :: h')
          (trimEnd (a ++ (HASH :: h') ++ b)).
Proof.
  intros Ha Hb. destruct (forallb is_ws b) eqn:Eb.
  - apply forallb_all_ws in Eb.
    rewrite app_assoc, (trimEnd_app_ws _ _ Eb).
    rewrite trimEnd_app_keep
      by (rewrite (trimEnd_cons_nonws _ _ hash_not_ws); discriminate).
    exists a, []. rewrite app_nil_r. repeat split; auto.
  - destruct (trimEnd b) as [|x b1] eqn:Et.
    + apply trimEnd_nil_all_ws, forallb_all_ws in Et. congruence.
    + rewrite app_assoc, trimEnd_app_keep
        by (rewrite Et; discriminate).
      rewrite Et, <- app_assoc. exists a, (x :: b1). repeat split; auto.
      right. destruct Hb as [Hb|[b0 Hb]]; [subst b; discriminate|].
      subst b. destruct (trimEnd_head LF b0) as [E|[r E]];
        rewrite E in Et; [discriminate|].
      injection Et as <- _. eauto.
Qed.

Lemma prettifyMarkdown_keeps_line (a h' b : jsstring) :
  a = [] \/ (exists a0, a = a0 ++ [LF]) ->
  b = [] \/ (exists b0, b = LF :: b0) ->
  ~ In LF (HASH :: h') ->
  line_at (if forallb is_ws b then trimEnd (HASH :: h') else HASH :: h')
          (prettifyMarkdown (a ++ (HASH :: h') ++ b)).
Proof.
  intros Ha Hb Hh.
  assert (E : prettifyMarkdown (a ++ (HASH :: h') ++ b) =
              replace_all title_case_header title_case_header_subst
                (replace_all bold_header bold_header_subst
                   (trim (a ++ (HASH :: h') ++ b))))
    by (unfold prettifyMarkdown; destruct (a ++ (HASH :: h') ++ b);
        reflexivity).
  rewrite E. unfold replace_all, trim.
  destruct (trimStart_keeps_line a h' b Ha) as [a' [-> Ha']].
  pose proof (trimEnd_keeps_line a' h' b Ha' Hb) as Hl.
  assert (Hno : ~ In LF (if forallb is_ws b then trimEnd (HASH :: h')
                         else HASH :: h'))
    by (destruct (forallb is_ws b); [now apply trimEnd_no_LF | exact Hh]).
  revert Hl Hno. rewrite (trimEnd_cons_nonws _ _ hash_not_ws).
  destruct (forallb is_ws b); intros Hl Hno;
    apply (pass_line_at _ _ title_case_match_shape); trivial;
    apply (pass_line_at _ _ bold_match_shape); trivial.
Qed.

Lemma renormalize_line_at (u : jsstring) (pre post : list jsstring)
  (h : jsstring) :
  lines u = pre ++ h :: post -> header_line h = true ->
  In (if forallb (forallb is_ws) post then trimEnd h else h)
     (lines (prettifyMarkdown u)).
Proof.
  intros El Hh.
  assert (Hin : In h (lines u))
    by (rewrite El; apply in_or_app; right; now left).
  apply split_on_no_sep in Hin.
  apply header_line_hash in Hh as [h' ->].
  assert (Eu : join [LF] (lines u) = u).
  { unfold lines. rewrite split_on_when. apply join_split_when.
    intros c t Hc. now apply N.eqb_eq in Hc. }
  rewrite El, join_around in Eu. rewrite <- Eu.
  rewrite <- forallb_ws_after.
  apply lines_line_at. split.
  - apply prettifyMarkdown_keeps_line; trivial.
    + destruct pre; [now left | right; eauto].
    + destruct post; [now left | right; eauto].
  - destruct (forallb is_ws _); [now apply trimEnd_no_LF | exact Hin].
Qed.

(** * Scenarios of the specification *)

(** Literals are read as code units. *)
Lemma js_code_units : js "# a" = [HASH; SPACE; 97%N].
Proof. reflexivity. Qed.

(** Scenario C of the specification. *)
Lemma scenario_C_cards :
  digest (js "## Story One" ++ [LF] ++ js "Intro text." ++ [LF] ++
          js "1. First point." ++ [LF] ++ js "2. Second point." ++ [LF] ++
          js "## Story Two" ++ [LF] ++ js "Other intro.") =
  Ok [ Card (js "Story One") (js "Intro text.")
            [js "1. First point."; js "2. Second point."];
       Card (js "Story Two") (js "Other intro.") [] ].
Proof. reflexivity. Qed.

(** With the colon after the bold run the line is rewritten, and the card
    keeps the three-character marker in its title. *)
Lemma scenario_D_colon_outside :
  let input := js "**Market Update**:" ++ [LF] ++ js "Stocks rose today." in
  prettifyMarkdown input =
  js "### Market Update" ++ [LF; LF] ++ js "Stocks rose today." /\
  digest input =
  Ok [ Card (js "### Market Update") (js "Stocks rose today.") [] ].
Proof. split; reflexivity. Qed.

(** * The claims *)

(** C1. For every string [s], the pipeline
    [splitIntoDigest(prettifyMarkdown(s))] returns a sequence of cards and
    does not throw.  Every function of the model is structurally
    recursive; the only run-time error the source can raise, a method call
    on a missing array element, is modelled by [Throw] and is shown not to
    happen.  The sequence is empty only when [s] is empty or all
    whitespace. *)
Theorem digest_total (s : jsstring) :
  exists cards : list DigestCard,
    digest s = Ok cards /\
    (cards = [] <-> forallb is_ws s = true).
Proof.
  unfold digest. rewrite splitIntoDigest_ok.
  exists (digest_cards (prettifyMarkdown s)). split; [reflexivity|].
  rewrite digest_cards_nil_iff, trim_nil_iff_all_ws, forallb_all_ws.
  split.
  - apply prettifyMarkdown_blank.
  - intros H. rewrite (prettifyMarkdown_all_ws _ H). constructor.
Qed.

(** C2, as stated, fails: on ["## Story"] normalization changes nothing and
    introduces no header marker, yet the segmenter strips the two marker
    characters of the title line, so the card holds 5 characters that are
    not whitespace against 7 in the normalized input. *)
Lemma content_claim_fails_on_header :
  prettifyMarkdown (js "## Story") = js "## Story" /\
  markers_introduced (js "## Story") = 0 /\
  digest (js "## Story") = Ok [ Card (js "Story") [] [] ] /\
  cards_nws [ Card (js "Story") [] [] ] <
  nws (prettifyMarkdown (js "## Story"))
  - markers_introduced (js "## Story").
Proof.
  repeat split; try reflexivity. vm_compute. lia.
Qed.

(** C2, amended.  For every input of the segmenter (the normalized text in
    the pipeline), the characters that are not whitespace in the titles,
    bodies and subcards of the returned cards are those of the input less
    the marker characters that the title pattern strips from the first
    line of a story block, no more and no fewer; a block loses one or two
    of them when its first line begins with a marker and none otherwise,
    so at most two per card.  Nothing else is dropped. *)
Theorem digest_content_preserved (md : jsstring) :
  exists cards,
    splitIntoDigest md = Ok cards /\
    cards_nws cards + markers_stripped md = nws md /\
    markers_stripped md <= 2 * List.length cards.
Proof.
  exists (digest_cards md). split.
  - apply splitIntoDigest_ok.
  - apply digest_cards_nws_exact.
Qed.

(** C3, as stated, fails: the single card is not titled ["Top story"]. *)
Lemma scenario_B_title_is_not_fallback :
  digest (js "Just one paragraph with no structure at all.") <>
  Ok [ Card TOP_STORY
            (trim (js "Just one paragraph with no structure at all."))
            [] ].
Proof. vm_compute. discriminate. Qed.

(** C3, amended.  For the input ["Just one paragraph with no structure at
    all."] the pipeline produces exactly one card; its title is the input
    text, which is the first line of the only block, its body is empty
    and its subcards list is empty. *)
Theorem scenario_B_card :
  digest (js "Just one paragraph with no structure at all.") =
  Ok [ Card (js "Just one paragraph with no structure at all.") [] [] ].
Proof. reflexivity. Qed.

(** C4.  On the input of scenario D the code departs from the claim: the
    bold line with the colon inside the bold run is not rewritten, and the
    card is titled with the raw line. *)
Theorem scenario_D_not_rewritten :
  let input := js "**Market Update:**" ++ [LF] ++ js "Stocks rose today." in
  prettifyMarkdown input = input /\
  digest input =
  Ok [ Card (js "**Market Update:**") (js "Stocks rose today.") [] ].
Proof. split; reflexivity. Qed.

(** C5, as stated, fails: a text of one space is normalized to the empty
    text, not returned unchanged. *)
Lemma normalize_trims_whitespace_only :
  forallb is_ws (js " ") = true /\ prettifyMarkdown (js " ") <> js " ".
Proof. split; [reflexivity | discriminate]. Qed.

(** C5, amended.  For every input that is empty or consists only of
    whitespace, normalize returns the empty string (and signals no error);
    the empty input is thus returned unchanged. *)
Theorem prettifyMarkdown_whitespace_only (s : jsstring) :
  forallb is_ws s = true -> prettifyMarkdown s = [].
Proof.
  intros H. apply prettifyMarkdown_all_ws. now apply forallb_all_ws.
Qed.

Lemma prettifyMarkdown_whitespace_only_witness :
  forallb is_ws [SPACE; LF; 9%N] = true /\
  prettifyMarkdown [SPACE; LF; 9%N] = [].
Proof.
  split; [reflexivity|].
  apply (prettifyMarkdown_whitespace_only [SPACE; LF; 9%N]). reflexivity.
Defined.



(** C7.  [splitIntoDigest] returns the empty sequence exactly when its
    input trims to the empty string, that is, when the input is empty or
    all whitespace; it never throws, so any other input gives at least one
    card. *)
Theorem splitIntoDigest_empty_iff (md : jsstring) :
  exists cards,
    splitIntoDigest md = Ok cards /\
    (cards = [] <-> trim md = []) /\
    (cards = [] <-> forallb is_ws md = true).
Proof.
  exists (digest_cards md). split; [apply splitIntoDigest_ok|].
  split; [apply digest_cards_nil_iff|].
  rewrite digest_cards_nil_iff, trim_nil_iff_all_ws.
  symmetry. apply forallb_all_ws.
Qed.

(** C8.  For every input, the subcards of the returned cards, taken card by
    card, occur in the input one after the other without overlap, in the
    order of the lists; in particular the entries of each card's subcards
    list stand in the input in the order of the list. *)
Theorem subcards_in_source_order (md : jsstring) :
  exists cards,
    splitIntoDigest md = Ok cards /\
    occurs_in_order (flat_map subcards cards) md /\
    Forall (fun c => occurs_in_order (subcards c) md) cards.
Proof.
  exists (digest_cards md). split; [apply splitIntoDigest_ok|]. split.
  - apply digest_cards_occur.
  - apply digest_cards_occur_each.
Qed.

(** C9, as stated, fails: the label of a bold pseudo-header may end in a
    space; the header line ["### abc "] of [normalize("**abc **:")] ends
    the text, and normalizing again trims it to ["### abc"]. *)
Lemma renormalize_trims_last_header :
  In (js "### abc ") (lines (prettifyMarkdown (js "**abc **:"))) /\
  header_line (js "### abc ") = true /\
  ~ In (js "### abc ")
       (lines (prettifyMarkdown (prettifyMarkdown (js "**abc **:")))).
Proof.
  split; [vm_compute; auto|]. split; [reflexivity|].
  vm_compute. intros [H|[]]. discriminate H.
Qed.

(** C9, amended.  Every canonical header line of [normalize(s)] stands in
    [normalize(normalize(s))]: unchanged when a later line of
    [normalize(s)] holds text, and with the whitespace at its end trimmed
    away when it is the last line that holds text.  No rewrite matches a
    line that begins with the header marker. *)
Theorem renormalize_keeps_header_lines (s : jsstring)
  (pre post : list jsstring) (h : jsstring) :
  lines (prettifyMarkdown s) = pre ++ h :: post ->
  header_line h = true ->
  In (if forallb (forallb is_ws) post then trimEnd h else h)
     (lines (prettifyMarkdown (prettifyMarkdown s))).
Proof. apply renormalize_line_at. Qed.

Lemma renormalize_keeps_header_lines_witness :
  lines (prettifyMarkdown (js "**abc **:" ++ [LF] ++ js "x")) =
  [] ++ js "### abc " :: [[]; js "x"] /\
  header_line (js "### abc ") = true /\
  In (js "### abc ")
     (lines (prettifyMarkdown
               (prettifyMarkdown (js "**abc **:" ++ [LF] ++ js "x")))).
Proof.
  split; [reflexivity|]. split; [reflexivity|].
  exact (renormalize_keeps_header_lines
           (js "**abc **:" ++ [LF] ++ js "x") [] [[]; js "x"]
           (js "### abc ") eq_refl eq_refl).
Defined.

(** C10, as stated, fails: in ["T\na\n1.\n2. x"] the whitespace that the
    lookahead sees after ["1."] is the line feed of the next boundary, so
    the subcard ["1."] has no whitespace after its period. *)
Lemma subcard_without_space_after_period :
  splitIntoDigest
    (js "T" ++ [LF] ++ js "a" ++ [LF] ++ js "1." ++ [LF] ++ js "2. x") =
  Ok [ Card (js "T") (js "a") [js "1."; js "2. x"] ] /\
  numbered_ahead (js "1.") = false.
Proof. split; reflexivity. Qed.

(** C10, amended.  For every input, every string in a returned card's
    subcards list is non-empty, has no whitespace at either end, and
    begins with one or more digits and a period, the period being followed
    by whitespace or by the end of the string. *)
Theorem subcards_are_trimmed_items (md : jsstring) :
  exists cards,
    splitIntoDigest md = Ok cards /\
    Forall (fun c => Forall subcard_ok (subcards c)) cards.
Proof.
  exists (digest_cards md). split; [apply splitIntoDigest_ok|].
  apply digest_cards_subcards.
Qed.

(** * Further properties of the two functions *)

(** ** Whitespace around the input *)

Lemma trim_pad (a s b : jsstring) :
  all_ws a -> all_ws b -> trim (a ++ s ++ b) = trim s.
Proof.
  intros Ha Hb. unfold trim. rewrite (trimStart_app_ws _ _ Ha).
  destruct (trimStart s) as [|c r] eqn:E.
  - apply trimStart_nil_all_ws in E.
    rewrite trimStart_all_ws; [reflexivity|].
    apply Forall_app. now split.
  - rewrite trimStart_app_keep by (rewrite E; discriminate).
    rewrite E. now apply trimEnd_app_ws.
Qed.

Lemma prettifyMarkdown_trim (s : jsstring) :
  prettifyMarkdown s =
  replace_all title_case_header title_case_header_subst
    (replace_all bold_header bold_header_subst (trim s)).
Proof.
  unfold prettifyMarkdown. destruct s; reflexivity.
Qed.

(** X1.  Whitespace before and after the text changes neither the normalized
    text nor the cards. *)
Theorem surrounding_whitespace_ignored (a s b : jsstring) :
  forallb is_ws a = true -> forallb is_ws b = true ->
  prettifyMarkdown (a ++ s ++ b) = prettifyMarkdown s /\
  splitIntoDigest (a ++ s ++ b) = splitIntoDigest s /\
  digest (a ++ s ++ b) = digest s.
Proof.
  intros Ha Hb. apply forallb_all_ws in Ha, Hb.
  assert (Hp : prettifyMarkdown (a ++ s ++ b) = prettifyMarkdown s)
    by (rewrite !prettifyMarkdown_trim; now rewrite trim_pad).
  split; [exact Hp|]. split.
  - unfold splitIntoDigest. now rewrite trim_pad.
  - unfold digest. now rewrite Hp.
Qed.

Lemma surrounding_whitespace_ignored_witness :
  prettifyMarkdown ([SPACE; LF] ++ js "## A" ++ [LF; 9%N]) =
  prettifyMarkdown (js "## A") /\
  splitIntoDigest ([SPACE; LF] ++ js "## A" ++ [LF; 9%N]) =
  splitIntoDigest (js "## A") /\
  digest ([SPACE; LF] ++ js "## A" ++ [LF; 9%N]) = digest (js "## A").
Proof.
  apply (surrounding_whitespace_ignored [SPACE; LF] (js "## A") [LF; 9%N]);
    reflexivity.
Defined.

(** ** The fields of a card *)

Lemma title_candidate_raw (block : jsstring) :
  title_candidate block = raw_title block.
Proof.
  unfold title_candidate, raw_title. rewrite replace_first_title_marker.
  destruct (split_on LF block) as [|l ls] eqn:E; [|reflexivity].
  now apply split_on_nonempty in E.
Qed.

(** X2.  The fallback title is dead code: the title of every returned card
    is the title computed from the first line of its story block, which is
    never empty because a block is trimmed and not empty; so the
    alternative [title || "Top story"] always takes the title. *)
Theorem card_titles_are_title_candidates (md : jsstring) :
  exists cards,
    splitIntoDigest md = Ok cards /\
    Forall2 (fun block card =>
               title_candidate block <> [] /\
               title card = title_candidate block)
            (if truthy (trim md) then storyBlocks (trim md) else [])
            cards.
Proof.
  exists (digest_cards md). split; [apply splitIntoDigest_ok|].
  unfold digest_cards.
  destruct (trim md) as [|c t] eqn:E; cbn [truthy]; [constructor|].
  rewrite story_blocks_of_source.
  assert (H : Forall (fun b => trim b = b /\ b <> [])
                     (story_blocks (c :: t))).
  { apply story_blocks_trimmed; [|discriminate].
    rewrite <- E. apply trim_fixed. }
  induction H as [|b bs [Hb Hne] _ IH]; cbn [map]; constructor;
    [|exact IH].
  rewrite title_candidate_raw.
  pose proof (raw_title_nonempty b Hb Hne) as Hr.
  split; [exact Hr|]. unfold block_card. cbn [title].
  fold (raw_title b). now destruct (raw_title b).
Qed.

Lemma In_trimStart (c : N) (s : jsstring) : In c (trimStart s) -> In c s.
Proof.
  destruct (trimStart_split s) as [a [E _]]. intros H. rewrite E.
  apply in_or_app. now right.
Qed.

Lemma In_trim (c : N) (s : jsstring) : In c (trim s) -> In c s.
Proof.
  destruct (trim_split s) as [a [b [E _]]]. intros H. rewrite E.
  apply in_or_app. right. apply in_or_app. now left.
Qed.

Lemma In_strip_marker (c : N) (s : jsstring) :
  In c (strip_marker s) -> In c s.
Proof.
  unfold strip_marker.
  destruct s as [|a t]; [auto|].
  destruct (N.eqb a HASH); [|auto].
  destruct t as [|d t']; [auto|].
  destruct (N.eqb d HASH).
  - destruct t' as [|w u]; [auto|]. destruct (is_ws w); [|auto].
    intros H. apply In_trimStart in H. now do 2 right.
  - destruct (is_ws d); [|auto].
    intros H. apply In_trimStart in H. now right.
Qed.

Lemma hd_split_on_no_LF (s : jsstring) : ~ In LF (hd [] (split_on LF s)).
Proof.
  apply (split_on_no_sep s). destruct (split_on LF s) eqn:E.
  - now apply split_on_nonempty in E.
  - now left.
Qed.

Lemma block_card_fields (block : jsstring) :
  title (block_card block) <> [] /\
  trim (title (block_card block)) = title (block_card block) /\
  ~ In LF (title (block_card block)) /\
  trim (body (block_card block)) = body (block_card block).
Proof.
  unfold block_card. cbn [title body].
  set (t0 := trim (strip_marker (trim (hd [] (split_on LF block))))).
  set (rest := trim (join [LF] (tl (split_on LF block)))).
  assert (Ht0 : ~ In LF t0).
  { intros H. unfold t0 in H.
    apply In_trim, In_strip_marker, In_trim in H.
    now apply hd_split_on_no_LF in H. }
  repeat split.
  - destruct t0; cbn [truthy]; discriminate.
  - destruct t0 eqn:E; cbn [truthy]; [reflexivity|].
    rewrite <- E. apply trim_fixed.
  - destruct t0 eqn:E; cbn [truthy]; [|exact Ht0].
    vm_compute. intuition discriminate.
  - destruct (truthy rest); [|apply trim_fixed].
    destruct (split_when _ rest); apply trim_fixed.
Qed.

(** X3.  Every card has a title that is not empty, carries no whitespace at
    either end and holds no line feed, and a body without whitespace at
    either end. *)
Theorem card_fields_trimmed (md : jsstring) :
  exists cards,
    splitIntoDigest md = Ok cards /\
    Forall (fun c => title c <> [] /\ trim (title c) = title c /\
                     ~ In LF (title c) /\ trim (body c) = body c) cards.
Proof.
  exists (digest_cards md). split; [apply splitIntoDigest_ok|].
  unfold digest_cards. destruct (truthy (trim md)); [|constructor].
  apply Forall_map, Forall_forall. intros b _. apply block_card_fields.
Qed.

(** ** The cards hold text of the input only *)

Lemma piece_of_refl (s : jsstring) : piece_of s s.
Proof. exists [], []. now rewrite app_nil_r. Qed.

Lemma piece_of_trans (x y z : jsstring) :
  piece_of x y -> piece_of y z -> piece_of x z.
Proof.
  intros [a [b ->]] [c [d ->]]. exists (c ++ a), (b ++ d).
  now rewrite <- !app_assoc.
Qed.

Lemma piece_of_trim (s : jsstring) : piece_of (trim s) s.
Proof. destruct (trim_split s) as [a [b [E _]]]. now exists a, b. Qed.

Lemma piece_of_trimStart (s : jsstring) : piece_of (trimStart s) s.
Proof.
  destruct (trimStart_split s) as [a [E _]]. exists a, [].
  now rewrite app_nil_r.
Qed.

Lemma piece_of_suffix (a s : jsstring) : piece_of s (a ++ s).
Proof. exists a, []. now rewrite app_nil_r. Qed.

Lemma piece_of_strip_marker (s : jsstring) : piece_of (strip_marker s) s.
Proof.
  unfold strip_marker.
  destruct s as [|a t]; [apply piece_of_refl|].
  destruct (N.eqb a HASH); [|apply piece_of_refl].
  destruct t as [|d t']; [apply piece_of_refl|].
  destruct (N.eqb d HASH).
  - destruct t' as [|w u]; [apply piece_of_refl|].
    destruct (is_ws w); [|apply piece_of_refl].
    eapply piece_of_trans; [apply piece_of_trimStart|].
    apply (piece_of_suffix [a; d]).
  - destruct (is_ws d); [|apply piece_of_refl].
    eapply piece_of_trans; [apply piece_of_trimStart|].
    apply (piece_of_suffix [a]).
Qed.

Lemma line_at_piece_of (h u : jsstring) : line_at h u -> piece_of h u.
Proof. intros [a [b [E _]]]. now exists a, b. Qed.

Lemma piece_of_joined (l : list jsstring) (x : jsstring) :
  In x l -> piece_of x (join [LF] l).
Proof.
  intros H. destruct (in_split _ _ H) as [l1 [l2 ->]].
  apply line_at_piece_of, join_line_at.
Qed.

Lemma piece_of_split_when (sep : jsstring -> bool) (s x : jsstring) :
  (forall c t, sep (c :: t) = true -> c = LF) ->
  In x (split_when sep s) -> piece_of x s.
Proof.
  intros Hsep H. rewrite <- (join_split_when sep Hsep s).
  now apply piece_of_joined.
Qed.

Lemma piece_of_join_tl (l : list jsstring) :
  piece_of (join [LF] (tl l)) (join [LF] l).
Proof.
  destruct l as [|x l]; [apply piece_of_refl|]. cbn [tl].
  destruct l as [|y l].
  - exists x, []. now rewrite app_nil_r.
  - change (join [LF] (x :: y :: l)) with (x ++ [LF] ++ join [LF] (y :: l)).
    rewrite app_assoc. apply piece_of_suffix.
Qed.

Lemma occurs_pieces (xs : list jsstring) (t : jsstring) :
  occurs_in_order xs t -> Forall (fun x => piece_of x t) xs.
Proof.
  induction 1 as [t|x xs g t H IH]; constructor.
  - now exists g, t.
  - eapply Forall_impl; [|exact IH].
    intros y Hy. eapply piece_of_trans; [exact Hy|].
    rewrite app_assoc. apply piece_of_suffix.
Qed.

Lemma block_card_pieces (block : jsstring) :
  trim block = block -> block <> [] ->
  piece_of (title (block_card block)) block /\
  piece_of (body (block_card block)) block.
Proof.
  intros Hb Hne.
  assert (Ej : join [LF] (split_on LF block) = block).
  { rewrite split_on_when. apply join_split_when.
    intros c t Hc. now apply N.eqb_eq in Hc. }
  split.
  - pose proof (raw_title_nonempty block Hb Hne) as Hr.
    unfold block_card. cbn [title]. fold (raw_title block).
    destruct (raw_title block) eqn:E; [contradiction|]. cbn [truthy].
    rewrite <- E. unfold raw_title.
    eapply piece_of_trans; [apply piece_of_trim|].
    eapply piece_of_trans; [apply piece_of_strip_marker|].
    eapply piece_of_trans; [apply piece_of_trim|].
    rewrite <- Ej at 2. apply piece_of_joined.
    destruct (split_on LF block) eqn:Es; [|now left].
    now apply split_on_nonempty in Es.
  - unfold block_card. cbn [body].
    set (rest := trim (join [LF] (tl (split_on LF block)))).
    assert (Hrest : piece_of rest block).
    { eapply piece_of_trans; [apply piece_of_trim|].
      rewrite <- Ej at 2. apply piece_of_join_tl. }
    destruct (truthy rest); [|exact Hrest].
    destruct (split_when (lf_before numbered_ahead) rest) as [|p ps] eqn:Ep;
      [exact Hrest|].
    eapply piece_of_trans; [apply piece_of_trim|].
    eapply piece_of_trans; [|exact Hrest].
    apply (piece_of_split_when _ _ _ (lf_before_LF numbered_ahead)).
    rewrite Ep. now left.
Qed.

Lemma story_blocks_pieces (text : jsstring) :
  Forall (fun b => piece_of b text) (story_blocks text).
Proof.
  unfold story_blocks. destruct (Nat.ltb 1 _).
  - apply Forall_forall. intros b Hb.
    apply filter_In in Hb as [Hb _].
    apply in_map_iff in Hb as [p [<- Hp]].
    eapply piece_of_trans; [apply piece_of_trim|].
    now apply (piece_of_split_when _ _ _ (lf_before_LF header_ahead)).
  - repeat constructor. apply piece_of_refl.
Qed.

(** X4.  Every title, body and subcard is a contiguous piece of the input of the
    segmenter: no text is made up, and the fallback label in particular is
    never used. *)
Theorem cards_hold_input_text (md : jsstring) :
  exists cards,
    splitIntoDigest md = Ok cards /\
    Forall (fun c => piece_of (title c) md /\ piece_of (body c) md /\
                     Forall (fun x => piece_of x md) (subcards c)) cards.
Proof.
  exists (digest_cards md). split; [apply splitIntoDigest_ok|].
  pose proof (digest_cards_occur_each md) as Hsub.
  rewrite Forall_forall in Hsub. apply Forall_forall. intros c Hc.
  split; [|split; [|apply occurs_pieces; now apply Hsub]];
    unfold digest_cards in Hc;
    destruct (trim md) as [|x t] eqn:E; cbn [truthy] in Hc;
    try contradiction;
    apply in_map_iff in Hc as [b [<- Hb]];
    pose proof (story_blocks_pieces (x :: t)) as Hp;
    pose proof (story_blocks_trimmed (x :: t)) as Ht;
    rewrite Forall_forall in Hp, Ht;
    specialize (Hp b Hb);
    destruct (Ht ltac:(rewrite <- E; apply trim_fixed) ltac:(discriminate)
                 b Hb) as [Hb1 Hb2];
    destruct (block_card_pieces b Hb1 Hb2) as [H1 H2];
    (eapply piece_of_trans; [eassumption|]);
    (eapply piece_of_trans; [exact Hp|]);
    rewrite <- E; apply piece_of_trim.
Qed.

(** ** Text on which no rewrite applies *)

Lemma replace_go_no_match (r : re) (tmpl : list titem) :
  (forall pos s n caps,
      exec r pos s = Some (n, caps) -> 1 <= n <= List.length s) ->
  forall s,
    (forall pos a b, s = a ++ b -> exec r pos b = None) ->
    forall pos, replace_go r tmpl pos 0 s = s.
Proof.
  intros Hb. induction s as [|c t IH]; intros Hs pos;
    rewrite (replace_go_step r tmpl Hb), (Hs pos [] _ eq_refl);
    [reflexivity|].
  f_equal. apply IH. intros p a b E. apply (Hs p (c :: a) b).
  now rewrite E.
Qed.

Lemma bold_match_colon (pos : nat) (s : jsstring) (n : nat)
  (caps : list (nat * jsstring)) :
  exec bold_header pos s = Some (n, caps) -> In COLON s.
Proof.
  intros H. apply bold_match in H as [g [L [w [rest [-> _]]]]].
  apply in_or_app. right. apply in_or_app. right. apply in_or_app. right.
  apply in_or_app. left. now do 2 right; left.
Qed.

Lemma title_case_match_colon (pos : nat) (s : jsstring) (n : nat)
  (caps : list (nat * jsstring)) :
  exec title_case_header pos s = Some (n, caps) -> In COLON s.
Proof.
  intros H. apply title_case_match in H
    as [g [X [w [rest [c [X' [-> _]]]]]]].
  apply in_or_app. right. apply in_or_app. right. apply in_or_app. left.
  now left.
Qed.

Lemma no_colon_no_match (r : re) (s : jsstring) :
  (forall pos u n caps, exec r pos u = Some (n, caps) -> In COLON u) ->
  ~ In COLON s ->
  forall pos a b, s = a ++ b -> exec r pos b = None.
Proof.
  intros Hr Hs pos a b E.
  destruct (exec r pos b) as [[n caps]|] eqn:Ex; [|reflexivity].
  exfalso. apply Hs. rewrite E. apply in_or_app. right.
  eapply Hr. exact Ex.
Qed.

Lemma bold_pass_no_colon (s : jsstring) (pos : nat) :
  ~ In COLON s -> replace_go bold_header bold_header_subst pos 0 s = s.
Proof.
  intros H. apply (replace_go_no_match _ _ bold_match_bounds).
  now apply (no_colon_no_match _ _ bold_match_colon).
Qed.

Lemma title_case_pass_no_colon (s : jsstring) (pos : nat) :
  ~ In COLON s ->
  replace_go title_case_header title_case_header_subst pos 0 s = s.
Proof.
  intros H. apply (replace_go_no_match _ _ title_case_match_bounds).
  now apply (no_colon_no_match _ _ title_case_match_colon).
Qed.

Lemma existsb_eqb_false (c : N) (s : jsstring) :
  existsb (N.eqb c) s = false <-> ~ In c s.
Proof.
  split.
  - intros H Hin. assert (E : existsb (N.eqb c) s = true).
    { apply existsb_exists. exists c. split; [exact Hin | apply N.eqb_refl]. }
    congruence.
  - intros H. destruct (existsb (N.eqb c) s) eqn:E; [|reflexivity].
    apply existsb_exists in E as [x [Hx Ex]]. apply N.eqb_eq in Ex.
    subst x. contradiction.
Qed.

(** X5.  Both rewrite rules need a colon: a text without a colon is only
    trimmed. *)
Theorem prettifyMarkdown_without_colon (s : jsstring) :
  existsb (N.eqb COLON) s = false -> prettifyMarkdown s = trim s.
Proof.
  intros H. apply existsb_eqb_false in H.
  assert (Ht : ~ In COLON (trim s)) by (intros Hc; now apply In_trim in Hc).
  rewrite prettifyMarkdown_trim. unfold replace_all.
  rewrite (bold_pass_no_colon _ _ Ht). now apply title_case_pass_no_colon.
Qed.

Lemma prettifyMarkdown_without_colon_witness :
  prettifyMarkdown (js " ## Plain **text** ") =
  trim (js " ## Plain **text** ").
Proof.
  apply (prettifyMarkdown_without_colon (js " ## Plain **text** ")).
  reflexivity.
Defined.

(** ** The bold rule on a line of its own *)

Lemma prefix_upto_app_stop (p : N -> bool) (L : jsstring) (c : N)
  (r : jsstring) :
  Forall (fun x => p x = true) L -> p c = false ->
  forall n, prefix_upto n p (L ++ c :: r) = firstn n L.
Proof.
  intros HL Hc. induction HL as [|x L Hx _ IH]; intros [|n];
    try reflexivity.
  - change (prefix_upto (S n) p ([] ++ c :: r))
      with (if p c then c :: prefix_upto n p r else []).
    now rewrite Hc.
  - change (prefix_upto (S n) p ((x :: L) ++ c :: r))
      with (if p x then x :: prefix_upto n p (L ++ c :: r) else []).
    rewrite Hx, IH. reflexivity.
Qed.

Lemma bold_at_line (L : jsstring) :
  Forall (fun x => label_char x = true) L ->
  bold_at (js "**" ++ L ++ js "**:") =
  if Nat.leb 3 (List.length L) && Nat.leb (List.length L) 60
  then Some (L, 0) else None.
Proof.
  intros HL. unfold bold_at. change (js "**" ++ L ++ js "**:")
    with (STAR :: STAR :: L ++ STAR :: [STAR; COLON]).
  cbv iota. rewrite !N.eqb_refl. cbn [andb].
  rewrite (prefix_upto_app_stop label_char L STAR _ HL eq_refl).
  destruct (Nat.leb (List.length L) 60) eqn:E60.
  - apply Nat.leb_le in E60. rewrite firstn_all2 by exact E60.
    destruct (Nat.leb 3 (List.length L)); cbn [andb]; [|reflexivity].
    rewrite skipn_length_app. rewrite !N.eqb_refl. reflexivity.
  - apply Nat.leb_gt in E60. rewrite andb_false_r.
    rewrite length_firstn, Nat.min_l by lia.
    change (Nat.leb 3 60) with true. cbv iota.
    rewrite skipn_app.
    destruct (skipn 60 L) as [|x u] eqn:Es.
    { apply (f_equal (@List.length N)) in Es.
      rewrite length_skipn in Es. simpl in Es. lia. }
    assert (Hx : label_char x = true).
    { rewrite Forall_forall in HL. apply HL.
      rewrite <- (firstn_skipn 60 L), Es. apply in_or_app. right. now left. }
    apply label_char_not_star in Hx. rewrite N.eqb_sym in Hx.
    cbn [app]. destruct (u ++ _) as [|y [|z w]]; try reflexivity.
    now rewrite Hx.
Qed.

Lemma pass_nil (r : re) (tmpl : list titem) (pos : nat) :
  (forall pos s n caps,
      exec r pos s = Some (n, caps) -> 1 <= n <= List.length s) ->
  replace_go r tmpl pos 0 [] = [].
Proof.
  intros Hb. rewrite (replace_go_step r tmpl Hb).
  destruct (exec r pos []) as [[n caps]|] eqn:E; [|reflexivity].
  apply Hb in E. simpl in E. lia.
Qed.

Lemma bold_pass_line_later (x : jsstring) (pos : nat) :
  ~ In LF x -> pos <> 0 ->
  replace_go bold_header bold_header_subst pos 0 x = x.
Proof.
  intros Hx Hp. rewrite <- (app_nil_r x) at 1.
  rewrite (pass_copy _ _ bold_match_shape x Hx pos [] Hp).
  now rewrite (pass_nil _ _ _ bold_match_bounds), app_nil_r.
Qed.

Lemma title_case_pass_line_later (x : jsstring) (pos : nat) :
  ~ In LF x -> pos <> 0 ->
  replace_go title_case_header title_case_header_subst pos 0 x = x.
Proof.
  intros Hx Hp. rewrite <- (app_nil_r x) at 1.
  rewrite (pass_copy _ _ title_case_match_shape x Hx pos [] Hp).
  now rewrite (pass_nil _ _ _ title_case_match_bounds), app_nil_r.
Qed.

Lemma label_no_LF (L : jsstring) :
  Forall (fun x => label_char x = true) L -> ~ In LF L.
Proof. now apply (Forall_not_in label_char). Qed.

Lemma bold_line_no_LF (L : jsstring) :
  Forall (fun x => label_char x = true) L ->
  ~ In LF (STAR :: L ++ [STAR; STAR; COLON]).
Proof.
  intros HL [E|H]; [discriminate|].
  apply in_app_or in H as [H|H]; [now apply label_no_LF in H|].
  destruct H as [E|[E|[E|[]]]]; discriminate.
Qed.

Lemma trim_bold_line (L : jsstring) :
  trim (js "**" ++ L ++ js "**:") = js "**" ++ L ++ js "**:".
Proof.
  assert (E : js "**" ++ L ++ js "**:" =
              (STAR :: STAR :: L ++ [STAR; STAR]) ++ [COLON]).
  { change (js "**" ++ L ++ js "**:")
      with (STAR :: STAR :: L ++ [STAR; STAR] ++ [COLON]).
    now rewrite app_assoc. }
  rewrite E. unfold trim.
  change ((STAR :: STAR :: L ++ [STAR; STAR]) ++ [COLON])
    with (STAR :: (STAR :: L ++ [STAR; STAR]) ++ [COLON]).
  rewrite (trimStart_nonws STAR _ eq_refl).
  change (STAR :: (STAR :: L ++ [STAR; STAR]) ++ [COLON])
    with ((STAR :: STAR :: L ++ [STAR; STAR]) ++ [COLON]).
  now apply trimEnd_idem_nonws.
Qed.

(** X6.  A text that is one bold pseudo-header [**L**:] is rewritten to the
    header [### L] and a blank line exactly when the label has 3 to 60
    characters; a shorter or longer label leaves the text as it is. *)
Theorem bold_rule_label_bounds (L : jsstring) :
  forallb label_char L = true ->
  prettifyMarkdown (js "**" ++ L ++ js "**:") =
  if Nat.leb 3 (List.length L) && Nat.leb (List.length L) 60
  then js "### " ++ L ++ [LF; LF]
  else js "**" ++ L ++ js "**:".
Proof.
  intros HL.
  assert (HF : Forall (fun x => label_char x = true) L).
  { apply Forall_forall. now apply forallb_forall. }
  rewrite prettifyMarkdown_trim, trim_bold_line. unfold replace_all.
  rewrite (replace_go_step _ _ bold_match_bounds), exec_bold_header.
  unfold with_line_start. cbn [Nat.eqb]. rewrite (bold_at_line L HF).
  destruct (Nat.leb 3 (List.length L) && Nat.leb (List.length L) 60).
  - (* rewritten; the second pass copies the header line *)
    cbn [subst bold_header_subst flat_map get_cap Nat.eqb app].
    rewrite skipn_all2
      by (rewrite !length_app; simpl; lia).
    rewrite (pass_nil _ _ _ bold_match_bounds), !app_nil_r.
    change (js "### " ++ L ++ [LF; LF])
      with ((HASH :: [HASH; HASH; SPACE] ++ L) ++ [LF; LF]).
    rewrite (pass_header _ _ title_case_match_shape).
    + now rewrite title_case_pass_no_colon
        by (intros [E|[E|[]]]; discriminate).
    + intros [E|H]; [discriminate|].
      apply in_app_or in H as [H|H]; [|now apply label_no_LF in H].
      destruct H as [E|[E|[E|[]]]]; discriminate.
  - (* not rewritten by either pass *)
    change (js "**" ++ L ++ js "**:")
      with (STAR :: STAR :: L ++ [STAR; STAR; COLON]).
    cbn [N.eqb]. change (N.eqb STAR LF) with false. cbv iota.
    rewrite (bold_pass_line_later _ 1 (bold_line_no_LF L HF))
      by discriminate.
    rewrite (replace_go_step _ _ title_case_match_bounds),
      exec_title_case_header.
    unfold with_line_start, heading_at. cbn [Nat.eqb].
    change (upper STAR) with false. change (N.eqb STAR LF) with false.
    cbv iota.
    now rewrite (title_case_pass_line_later _ 1 (bold_line_no_LF L HF))
      by discriminate.
Qed.

Lemma bold_rule_label_bounds_witness :
  prettifyMarkdown (js "**" ++ js "ab" ++ js "**:") =
  js "**" ++ js "ab" ++ js "**:".
Proof.
  apply (bold_rule_label_bounds (js "ab")). reflexivity.
Defined.

(** ** The headers that normalization writes are not story boundaries *)

(** X7.  A line that begins with three marker characters is neither a story
    boundary nor stripped of its marker. *)
Theorem three_hashes_not_a_story_header (pos : nat) (t : jsstring) :
  exec story_boundary pos (LF :: HASH :: HASH :: HASH :: t) = None /\
  replace_first title_marker [] (HASH :: HASH :: HASH :: t) =
  HASH :: HASH :: HASH :: t.
Proof.
  split.
  - rewrite exec_story_boundary. reflexivity.
  - rewrite replace_first_title_marker. reflexivity.
Qed.

Lemma marked_app (a b : jsstring) : marked a -> marked b -> marked (a ++ b).
Proof.
  intros Ha Hb. induction Ha; cbn [app]; [exact Hb | |];
    constructor; assumption.
Qed.

Lemma hash_free_marked (x : jsstring) : ~ In HASH x -> marked x.
Proof.
  induction x as [|c x IH]; intros H; constructor.
  - intros ->. apply H. now left.
  - apply IH. intros Hin. apply H. now right.
Qed.

Lemma marked_drop (m rest : jsstring) :
  ~ In HASH m -> marked (m ++ rest) -> marked rest.
Proof.
  induction m as [|c m IH]; intros Hm H; [exact H|].
  cbn [app] in H. inversion H; subst.
  - apply IH; [|assumption]. intros Hin. apply Hm. now right.
  - exfalso. apply Hm. now left.
Qed.

Lemma marked_no_boundary (u : jsstring) :
  marked u ->
  forall a b, u = a ++ b -> lf_before header_ahead b = false.
Proof.
  induction 1 as [|c u Hc Hu IH|u Hu IH]; intros a b E.
  - symmetry in E. apply app_eq_nil in E as [_ ->]. reflexivity.
  - destruct a as [|x a]; cbn [app] in E.
    + subst b. unfold lf_before.
      destruct (N.eqb c LF); [|reflexivity]. cbn [andb].
      inversion Hu; subst; try reflexivity.
      unfold header_ahead.
      destruct (N.eqb c0 HASH) eqn:E0; [|reflexivity].
      apply N.eqb_eq in E0. contradiction.
    + injection E as _ E. now apply (IH a).
  - destruct a as [|x1 [|x2 [|x3 a]]]; cbn [app] in E.
    + now subst b.
    + injection E as _ E. now subst b.
    + injection E as _ _ E. now subst b.
    + injection E as _ _ _ E. now apply (IH a).
Qed.

Lemma bold_pass_marked (n : nat) :
  forall t, List.length t <= n -> ~ In HASH t ->
  forall pos, marked (replace_go bold_header bold_header_subst pos 0 t).
Proof.
  induction n as [|n IH]; intros t Hn Ht pos;
    rewrite (replace_go_step _ _ bold_match_bounds);
    destruct (exec bold_header pos t) as [[m caps]|] eqn:E.
  - apply bold_match_bounds in E. lia.
  - destruct t; [constructor | simpl in Hn; lia].
  - apply bold_match in E
      as [g [L [w [rest [Es [Em [Eo [Hg [Hw HL]]]]]]]]].
    assert (Hsk : skipn m t = rest).
    { rewrite Es, Em, !app_assoc. apply skipn_length_app. }
    rewrite Eo, Hsk.
    assert (Hfree : ~ In HASH g /\ ~ In HASH L /\ ~ In HASH rest).
    { rewrite Es in Ht. rewrite !in_app_iff in Ht. tauto. }
    destruct Hfree as [Fg [FL Fr]].
    rewrite <- !app_assoc.
    apply marked_app; [now apply hash_free_marked|].
    change (js "### ") with [HASH; HASH; HASH; SPACE]. cbn [app].
    apply marked_hashes. apply marked_char; [discriminate|].
    apply marked_app; [now apply hash_free_marked|].
    do 2 (apply marked_char; [discriminate|]).
    apply IH; [|exact Fr].
    rewrite Es in Hn. rewrite !length_app in Hn. simpl in Hn. lia.
  - destruct t as [|c t]; [constructor|].
    constructor.
    + intros ->. apply Ht. now left.
    + apply IH; [simpl in Hn; lia|]. intros Hin. apply Ht. now right.
Qed.

Lemma heading_no_hash (X : jsstring) :
  Forall (fun c => heading_char c = true) X -> ~ In HASH X.
Proof. now apply (Forall_not_in heading_char). Qed.

Lemma all_ws_no_hash_in (w : jsstring) : all_ws w -> ~ In HASH w.
Proof. now apply (Forall_not_in is_ws). Qed.

Lemma title_case_pass_marked (n : nat) :
  forall u, List.length u <= n -> marked u ->
  forall pos,
    marked (replace_go title_case_header title_case_header_subst pos 0 u).
Proof.
  induction n as [|n IH]; intros u Hn Hu pos.
  - destruct u; [|simpl in Hn; lia].
    rewrite (pass_nil _ _ _ title_case_match_bounds). constructor.
  - inversion Hu as [|c u' Hc Hu' Eu|u' Hu' Eu]; subst.
    + rewrite (pass_nil _ _ _ title_case_match_bounds). constructor.
    + rewrite (replace_go_step _ _ title_case_match_bounds).
      destruct (exec title_case_header pos (c :: u')) as [[m caps]|] eqn:E.
      * apply title_case_match in E
          as [g [X [w [rest [c0 [X' [Es [Em [Eo [Hg [Hw [EX [Hc0 HX]]]]]]]]]]]]].
        assert (Hsk : skipn m (c :: u') = rest).
        { rewrite Es, Em, !app_assoc. apply skipn_length_app. }
        rewrite Eo, Hsk.
        assert (FX : ~ In HASH X).
        { subst X. apply heading_no_hash. constructor;
            [now apply upper_heading_char | exact HX]. }
        assert (Fg : ~ In HASH g)
          by (destruct Hg as [[Hg _]|Hg]; rewrite Hg; simpl;
              intuition discriminate).
        assert (Hrest : marked rest).
        { apply (marked_drop (g ++ X ++ [COLON] ++ w ++ [LF])).
          - intros Hin.
            apply in_app_or in Hin as [Hin|Hin]; [contradiction|].
            apply in_app_or in Hin as [Hin|Hin]; [contradiction|].
            apply in_app_or in Hin as [Hin|Hin];
              [destruct Hin as [E|[]]; discriminate|].
            apply in_app_or in Hin as [Hin|Hin];
              [now apply all_ws_no_hash_in in Hin|].
            destruct Hin as [E|[]]; discriminate.
          - rewrite <- !app_assoc. rewrite <- Es. exact Hu. }
        rewrite <- !app_assoc.
        apply marked_app; [now apply hash_free_marked|].
        change (js "### ") with [HASH; HASH; HASH; SPACE]. cbn [app].
        apply marked_hashes. apply marked_char; [discriminate|].
        apply marked_app; [now apply hash_free_marked|].
        apply marked_char; [discriminate|].
        apply IH; [|exact Hrest].
        apply (f_equal (@List.length N)) in Es.
        rewrite !length_app in Es. simpl in *. subst X. simpl in Es. lia.
      * constructor; [exact Hc|]. apply IH; [simpl in Hn; lia | exact Hu'].
    + change (HASH :: HASH :: HASH :: u')
        with ((HASH :: [HASH; HASH]) ++ u').
      rewrite (pass_header _ _ title_case_match_shape).
      * cbn [app]. apply marked_hashes.
        apply IH; [simpl in Hn; lia | exact Hu'].
      * intros [E|[E|[E|[]]]]; discriminate.
Qed.

Lemma prettifyMarkdown_marked (s : jsstring) :
  ~ In HASH s -> marked (prettifyMarkdown s).
Proof.
  intros H. rewrite prettifyMarkdown_trim. unfold replace_all.
  apply (title_case_pass_marked _ _ (le_n _)).
  apply (bold_pass_marked _ _ (le_n _)).
  intros Hin. now apply In_trim in Hin.
Qed.

Lemma header_ahead_app (b y : jsstring) :
  header_ahead b = true -> header_ahead (b ++ y) = true.
Proof.
  unfold header_ahead.
  destruct b as [|c [|d [|w b]]]; cbn [app]; try discriminate.
  - now rewrite andb_false_r.
  - destruct (N.eqb c HASH); [|discriminate]. cbn [andb].
    destruct (N.eqb d HASH); [discriminate | auto].
  - auto.
Qed.

Lemma lf_before_app (ahead : jsstring -> bool) (b y : jsstring) :
  (forall u v, ahead u = true -> ahead (u ++ v) = true) ->
  lf_before ahead b = true -> lf_before ahead (b ++ y) = true.
Proof.
  intros Ha. unfold lf_before. destruct b as [|c b]; [discriminate|].
  cbn [app]. intros H. apply andb_true_iff in H as [H1 H2].
  rewrite H1. cbn [andb]. now apply Ha.
Qed.

Lemma split_when_no_sep (sep : jsstring -> bool) (s : jsstring) :
  (forall a b, s = a ++ b -> sep b = false) -> split_when sep s = [s].
Proof.
  induction s as [|c t IH]; intros H; [reflexivity|].
  cbn [split_when]. rewrite (H [] (c :: t) eq_refl).
  rewrite IH; [reflexivity|].
  intros a b E. apply (H (c :: a)). now rewrite E.
Qed.

Lemma marked_one_block (u : jsstring) :
  marked u -> story_blocks (trim u) = [trim u].
Proof.
  intros Hu. unfold story_blocks. rewrite split_when_no_sep.
  - cbn [map filter]. now destruct (truthy (trim (trim u))).
  - intros a b E.
    destruct (lf_before header_ahead b) eqn:Eb; [|reflexivity].
    destruct (trim_split u) as [x [y [Eu _]]].
    apply (lf_before_app _ b y header_ahead_app) in Eb.
    rewrite (marked_no_boundary u Hu (x ++ a) (b ++ y)) in Eb;
      [discriminate|].
    rewrite Eu at 1. rewrite E. now rewrite <- !app_assoc.
Qed.

(** X8.  On a text without the header marker character the pipeline returns at
    most one card: the headers that normalization writes never open a new
    card. *)
Theorem digest_one_card_without_markers (s : jsstring) :
  existsb (N.eqb HASH) s = false ->
  exists cards,
    digest s = Ok cards /\
    List.length cards = if forallb is_ws s then 0 else 1.
Proof.
  intros H. apply existsb_eqb_false in H.
  exists (digest_cards (prettifyMarkdown s)). split.
  - unfold digest. apply splitIntoDigest_ok.
  - destruct (forallb is_ws s) eqn:Ews.
    + apply forallb_all_ws in Ews.
      now rewrite (prettifyMarkdown_all_ws _ Ews).
    + unfold digest_cards.
      rewrite (marked_one_block _ (prettifyMarkdown_marked s H)).
      destruct (trim (prettifyMarkdown s)) eqn:E; [|reflexivity].
      apply trim_nil_all_ws, prettifyMarkdown_blank, forallb_all_ws in E.
      congruence.
Qed.

Lemma digest_one_card_without_markers_witness :
  exists cards,
    digest (js "**Alpha**: one" ++ [LF] ++ js "Market Update:" ++ [LF]
            ++ js "two") = Ok cards /\
    List.length cards = 1.
Proof.
  apply (digest_one_card_without_markers
           (js "**Alpha**: one" ++ [LF] ++ js "Market Update:" ++ [LF]
            ++ js "two")).
  reflexivity.
Defined.

(** ** One card for each story boundary *)

Lemma header_ahead_hash (t : jsstring) :
  header_ahead t = true -> exists u, t = HASH :: u.
Proof.
  unfold header_ahead. destruct t as [|c t]; [discriminate|].
  intros H. apply andb_true_iff in H as [H _].
  apply N.eqb_eq in H. subst c. eauto.
Qed.

Lemma story_pieces_heads (s : jsstring) :
  Forall (fun p => exists u, p = HASH :: u)
         (tl (split_when (lf_before header_ahead) s)).
Proof.
  induction s as [|c t IH]; [constructor|].
  cbn [split_when].
  destruct (lf_before header_ahead (c :: t)) eqn:E.
  - cbn [tl]. rewrite (split_when_cons _ t). constructor; [|exact IH].
    unfold lf_before in E. apply andb_true_iff in E as [_ E].
    apply header_ahead_hash in E as [u ->].
    rewrite hd_split_when_nosep by reflexivity. eauto.
  - rewrite (split_when_cons _ t) in *. exact IH.
Qed.

Lemma trim_head_nonws (c : N) (t : jsstring) :
  is_ws c = false -> trim (c :: t) <> [].
Proof.
  intros Hc E. apply trim_nil_all_ws in E. apply Forall_inv in E. congruence.
Qed.

Lemma story_pieces_nonblank (s : jsstring) :
  trim s = s -> s <> [] ->
  Forall (fun p => trim p <> []) (split_when (lf_before header_ahead) s).
Proof.
  intros Hs Hne. rewrite (split_when_cons _ s). constructor.
  - destruct s as [|c t]; [contradiction|].
    pose proof (trim_head _ _ _ Hs) as Hc.
    rewrite hd_split_when_nosep.
    + now apply trim_head_nonws.
    + unfold lf_before. destruct (N.eqb c LF) eqn:E; [|reflexivity].
      apply N.eqb_eq in E. subst c. discriminate.
  - eapply Forall_impl; [|apply story_pieces_heads].
    intros p [u ->]. now apply trim_head_nonws.
Qed.

Lemma filter_truthy_nonblank (l : list jsstring) :
  Forall (fun p => trim p <> []) l ->
  filter truthy (map trim l) = map trim l.
Proof.
  induction 1 as [|p l Hp _ IH]; [reflexivity|].
  cbn [map filter]. rewrite IH. now destruct (trim p).
Qed.

(** The story blocks of a trimmed text are its trimmed pieces. *)
Lemma story_blocks_pieces_eq (s : jsstring) :
  trim s = s -> s <> [] ->
  story_blocks s = map trim (split_when (lf_before header_ahead) s).
Proof.
  intros Hs Hne. unfold story_blocks.
  rewrite (filter_truthy_nonblank _ (story_pieces_nonblank s Hs Hne)).
  destruct (Nat.ltb 1 _) eqn:E; [reflexivity|].
  pose proof (join_split_when _ (lf_before_LF header_ahead) s) as Ej.
  destruct (split_when (lf_before header_ahead) s) as [|p [|q l]] eqn:Ep.
  - now apply split_when_nonempty in Ep.
  - cbn [join] in Ej. subst p. cbn [map]. now rewrite Hs.
  - discriminate E.
Qed.

Lemma split_when_length (r : re) (sep : jsstring -> bool) :
  (forall pos s, exec r pos s = if sep s then Some (1, []) else None) ->
  forall s pos,
    List.length (split_when sep s) = S (count_matches r pos s).
Proof.
  intros Hr. induction s as [|c t IH]; intros pos; [reflexivity|].
  cbn [split_when count_matches]. rewrite Hr.
  destruct (sep (c :: t)).
  - cbn [List.length]. now rewrite (IH (S pos)).
  - specialize (IH (S pos)).
    destruct (split_when sep t); simpl in *; lia.
Qed.

(** X9.  The segmenter returns one card more than there are story boundaries in
    its trimmed input, and none when that is empty. *)
Theorem one_card_per_story_boundary (md : jsstring) :
  exists cards,
    splitIntoDigest md = Ok cards /\
    List.length cards =
    if truthy (trim md)
    then S (count_matches story_boundary 0 (trim md))
    else 0.
Proof.
  exists (digest_cards md). split; [apply splitIntoDigest_ok|].
  unfold digest_cards.
  destruct (trim md) as [|c t] eqn:E; cbn [truthy]; [reflexivity|].
  rewrite story_blocks_pieces_eq;
    [|rewrite <- E; apply trim_fixed | discriminate].
  rewrite !length_map.
  apply (split_when_length _ _ exec_story_boundary).
Qed.

(** ** Splitting is exhaustive *)

Lemma numbered_ahead_app (b y : jsstring) :
  numbered_ahead b = true -> numbered_ahead (b ++ y) = true.
Proof.
  intros H.
  destruct (numbered_ahead_shape b H) as [d [w [u [-> [Hne [Hd Hw]]]]]].
  unfold numbered_ahead. rewrite <- app_assoc. cbn [app].
  rewrite (prefix_of_app_stop digit d DOT _ Hd eq_refl).
  rewrite skipn_length_app. rewrite Hw.
  destruct d; [contradiction | reflexivity].
Qed.

Section NoSeparator.

Variable sep : jsstring -> bool.
Hypothesis sep_nil : sep [] = false.
Hypothesis sep_app : forall b y, sep b = true -> sep (b ++ y) = true.

Lemma no_sep_in_nil : no_sep_in sep [].
Proof.
  intros a b E. symmetry in E. apply app_eq_nil in E as [_ ->].
  exact sep_nil.
Qed.

Lemma no_sep_in_piece (x p : jsstring) :
  piece_of x p -> no_sep_in sep p -> no_sep_in sep x.
Proof.
  intros [l [r ->]] Hp a b ->.
  destruct (sep b) eqn:E; [|reflexivity].
  rewrite <- (Hp (l ++ a) (b ++ r)).
  - symmetry. now apply sep_app.
  - now rewrite <- !app_assoc.
Qed.

Lemma hd_split_when_prefix (s : jsstring) :
  exists post, s = hd [] (split_when sep s) ++ post.
Proof.
  induction s as [|c t [post IH]]; [now exists []|].
  cbn [split_when]. destruct (sep (c :: t)).
  - now exists (c :: t).
  - rewrite (split_when_cons sep t). cbn [hd].
    exists post. cbn [app]. now rewrite <- IH.
Qed.

Lemma split_when_pieces_no_sep (s : jsstring) :
  Forall (no_sep_in sep) (split_when sep s).
Proof.
  induction s as [|c t IH].
  - repeat constructor. apply no_sep_in_nil.
  - cbn [split_when]. destruct (sep (c :: t)) eqn:E.
    + constructor; [apply no_sep_in_nil | exact IH].
    + rewrite (split_when_cons sep t) in *.
      destruct (hd_split_when_prefix t) as [post Ep].
      apply Forall_cons_iff in IH as [IH1 IH2].
      constructor; [|exact IH2].
      intros a b Eab. destruct a as [|x a]; cbn [app] in Eab.
      * subst b. destruct (sep (c :: hd [] (split_when sep t))) eqn:E1;
          [|reflexivity].
        apply (sep_app _ post) in E1. cbn [app] in E1.
        rewrite <- Ep in E1. congruence.
      * injection Eab as _ Eab. now apply (IH1 a b).
Qed.

End NoSeparator.

Lemma lf_before_no_LF (ahead : jsstring -> bool) (x : jsstring) :
  ~ In LF x -> no_sep_in (lf_before ahead) x.
Proof.
  intros Hx a b ->. destruct b as [|c b]; [reflexivity|].
  unfold lf_before. destruct (N.eqb c LF) eqn:E; [|reflexivity].
  apply N.eqb_eq in E. subst c. exfalso. apply Hx.
  apply in_or_app. right. now left.
Qed.

Lemma no_sep_story (x : jsstring) :
  no_sep_in (lf_before header_ahead) x ->
  no_match_inside story_boundary x.
Proof.
  intros H pos a b E. rewrite exec_story_boundary. now rewrite (H a b E).
Qed.

Lemma no_sep_numbered (x : jsstring) :
  no_sep_in (lf_before numbered_ahead) x ->
  no_match_inside numbered_boundary x.
Proof.
  intros H pos a b E. rewrite exec_numbered_boundary. now rewrite (H a b E).
Qed.

Lemma story_blocks_no_sep (s : jsstring) :
  trim s = s -> s <> [] ->
  Forall (no_sep_in (lf_before header_ahead)) (story_blocks s).
Proof.
  intros Hs Hne. rewrite (story_blocks_pieces_eq s Hs Hne).
  apply Forall_forall. intros b Hb.
  apply in_map_iff in Hb as [p [<- Hp]].
  apply (no_sep_in_piece _ (fun b y => lf_before_app _ b y header_ahead_app)
                         _ p (piece_of_trim p)).
  pose proof (split_when_pieces_no_sep _ eq_refl
                (fun b y => lf_before_app _ b y header_ahead_app) s) as H.
  rewrite Forall_forall in H. now apply H.
Qed.

Lemma block_card_no_numbered (block : jsstring) :
  Forall (no_sep_in (lf_before numbered_ahead))
         (body (block_card block) :: subcards (block_card block)).
Proof.
  unfold block_card. cbn [body subcards].
  set (rest := trim (join [LF] (tl (split_on LF block)))).
  pose proof (split_when_pieces_no_sep _ eq_refl
                (fun b y => lf_before_app _ b y numbered_ahead_app) rest)
    as H.
  assert (Hp : forall p, no_sep_in (lf_before numbered_ahead) p ->
                         no_sep_in (lf_before numbered_ahead) (trim p)).
  { intros p. apply no_sep_in_piece; [|apply piece_of_trim].
    intros b y. apply lf_before_app, numbered_ahead_app. }
  destruct rest as [|c r] eqn:Er; cbn [truthy].
  - repeat constructor. now apply no_sep_in_nil.
  - rewrite (split_when_cons _ (c :: r)) in *.
    apply Forall_cons_iff in H as [H1 H2]. cbn [tl].
    constructor; [now apply Hp|].
    apply Forall_forall. intros x Hx.
    apply filter_In in Hx as [Hx _].
    apply in_map_iff in Hx as [p [<- Hin]].
    apply Hp. rewrite Forall_forall in H2. now apply H2.
Qed.

(** X10.  No title, body or subcard contains a story boundary or a boundary of a
    numbered item: the segmenter splits at every one of them. *)
Theorem cards_split_at_every_boundary (md : jsstring) :
  exists cards,
    splitIntoDigest md = Ok cards /\
    Forall (fun c =>
              Forall (fun x => no_match_inside story_boundary x /\
                               no_match_inside numbered_boundary x)
                     (title c :: body c :: subcards c)) cards.
Proof.
  exists (digest_cards md). split; [apply splitIntoDigest_ok|].
  unfold digest_cards.
  destruct (trim md) as [|x t] eqn:E; cbn [truthy]; [constructor|].
  assert (Hs : trim (x :: t) = x :: t) by (rewrite <- E; apply trim_fixed).
  pose proof (story_blocks_no_sep _ Hs ltac:(discriminate)) as Hn.
  pose proof (story_blocks_trimmed (x :: t)) as Ht.
  rewrite Forall_forall in Hn, Ht.
  apply Forall_forall. intros c Hc.
  apply in_map_iff in Hc as [b [<- Hb]].
  destruct (Ht Hs ltac:(discriminate) b Hb) as [Hb1 Hb2].
  destruct (block_card_pieces b Hb1 Hb2) as [_ Hbody].
  destruct (block_card_fields b) as [_ [_ [Hlf _]]].
  pose proof (block_card_no_numbered b) as Hnum.
  pose proof (occurs_pieces _ _ (block_card_occurs b)) as Hsub.
  assert (Hst : forall y, piece_of y b ->
                          no_sep_in (lf_before header_ahead) y).
  { intros y Hy.
    apply (no_sep_in_piece _ (fun b y => lf_before_app _ b y header_ahead_app)
                           _ b Hy).
    now apply Hn. }
  constructor.
  - split; [apply no_sep_story | apply no_sep_numbered];
      now apply lf_before_no_LF.
  - apply Forall_cons_iff in Hnum as [Hnb Hns].
    constructor.
    + split; [apply no_sep_story; now apply Hst
             | now apply no_sep_numbered].
    + rewrite Forall_forall in Hsub, Hns. apply Forall_forall. intros y Hy.
      split; [apply no_sep_story, Hst; now apply Hsub
             | apply no_sep_numbered; now apply Hns].
Qed.

(** ** Texts put together at a story header *)

Lemma trimmed_trimEnd (s : jsstring) : trim s = s -> trimEnd s = s.
Proof.
  intros H. destruct s as [|c t]; [reflexivity|].
  pose proof (trim_head _ _ _ H) as Hc.
  unfold trim in H. now rewrite (trimStart_nonws _ _ Hc) in H.
Qed.

Lemma trim_joined (A m B : jsstring) :
  trim A = A -> A <> [] -> trim B = B -> B <> [] ->
  trim (A ++ m ++ B) = A ++ m ++ B.
Proof.
  intros HA Ha HB Hb. destruct A as [|c A]; [contradiction|].
  pose proof (trim_head _ _ _ HA) as Hc.
  unfold trim. cbn [app]. rewrite (trimStart_nonws _ _ Hc).
  change (c :: A ++ m ++ B) with ((c :: A) ++ m ++ B).
  rewrite app_assoc. rewrite trimEnd_app_keep.
  - now rewrite (trimmed_trimEnd B HB).
  - now rewrite (trimmed_trimEnd B HB).
Qed.

(** A text that ends in a character other than whitespace and the header
    marker has the same story boundaries whatever follows it. *)
Lemma header_sep_stable (u : jsstring) (x : N) (y : jsstring) :
  is_ws x = false -> x <> HASH ->
  lf_before header_ahead ((u ++ [x]) ++ y) =
  lf_before header_ahead (u ++ [x]).
Proof.
  intros Hw Hx. apply N.eqb_neq in Hx.
  assert (Hl : N.eqb x LF = false).
  { destruct (N.eqb x LF) eqn:E; [|reflexivity].
    apply N.eqb_eq in E. subst x. discriminate. }
  unfold lf_before, header_ahead.
  destruct u as [|c [|d [|e [|f u]]]]; cbn [app];
    rewrite ?Hl, ?Hx, ?Hw, ?andb_false_r; reflexivity.
Qed.

Lemma split_when_joined (sep : jsstring -> bool) (A B : jsstring) :
  (forall a suf, A = a ++ suf -> suf <> [] ->
                 sep (suf ++ LF :: B) = sep suf) ->
  sep (LF :: B) = true ->
  split_when sep (A ++ LF :: B) = split_when sep A ++ split_when sep B.
Proof.
  intros H HB. induction A as [|c A IH].
  - cbn [app split_when]. now rewrite HB.
  - cbn [app split_when].
    change (c :: A ++ LF :: B) with ((c :: A) ++ LF :: B).
    rewrite (H [] (c :: A) eq_refl) by discriminate.
    rewrite IH.
    + destruct (sep (c :: A)); [reflexivity|].
      rewrite (split_when_cons sep A). reflexivity.
    + intros a suf E. apply (H (c :: a)). now rewrite E.
Qed.

Lemma story_blocks_joined (A B : jsstring) :
  trim A = A -> last A HASH <> HASH -> trim B = B ->
  lf_before header_ahead (LF :: B) = true ->
  trim (A ++ LF :: B) = A ++ LF :: B /\
  story_blocks (A ++ LF :: B) = story_blocks A ++ story_blocks B.
Proof.
  intros HA Hlast HB Hsep.
  assert (Ha : A <> []) by (intros ->; now apply Hlast).
  assert (Hb : B <> []) by (intros ->; discriminate Hsep).
  assert (Ht : trim (A ++ LF :: B) = A ++ LF :: B)
    by exact (trim_joined A [LF] B HA Ha HB Hb).
  split; [exact Ht|].
  rewrite (story_blocks_pieces_eq _ Ht) by (now destruct A).
  rewrite (story_blocks_pieces_eq _ HA Ha).
  rewrite (story_blocks_pieces_eq _ HB Hb).
  rewrite <- map_app. f_equal.
  apply split_when_joined; [|exact Hsep].
  destruct (exists_last Ha) as [A0 [x EA]].
  assert (Hx : x <> HASH) by (rewrite EA, last_last in Hlast; exact Hlast).
  assert (Hw : is_ws x = false)
    by (apply (trim_last A A0); now rewrite HA).
  intros a suf E Hne.
  destruct (exists_last Hne) as [s0 [x' Es]].
  assert (x' = x).
  { rewrite Es, EA, app_assoc in E. now apply app_inj_tail in E as [_ E]. }
  subst x' suf. now apply header_sep_stable.
Qed.

(** X11.  Putting two trimmed texts together at a story header puts their cards
    together: when the first text does not end in the header marker and the
    line feed before the second is a story boundary, the cards of the whole
    are the cards of the first followed by the cards of the second. *)
Theorem digest_of_texts_joined_at_header (A B : jsstring) :
  trim A = A -> last A HASH <> HASH -> trim B = B ->
  exec story_boundary 0 (LF :: B) <> None ->
  exists ca cb,
    splitIntoDigest A = Ok ca /\
    splitIntoDigest B = Ok cb /\
    splitIntoDigest (A ++ LF :: B) = Ok (ca ++ cb).
Proof.
  intros HA Hlast HB Hsep.
  rewrite exec_story_boundary in Hsep.
  destruct (lf_before header_ahead (LF :: B)) eqn:E; [|contradiction].
  destruct (story_blocks_joined A B HA Hlast HB E) as [Ht Hs].
  exists (digest_cards A), (digest_cards B).
  repeat split; try apply splitIntoDigest_ok.
  rewrite splitIntoDigest_ok. f_equal.
  unfold digest_cards. rewrite Ht, HA, HB, Hs.
  destruct A as [|a A]; [now contradiction Hlast|].
  destruct B as [|b B]; [discriminate E|].
  cbn [app truthy]. now rewrite map_app.
Qed.

Lemma digest_of_texts_joined_at_header_witness :
  exists ca cb,
    splitIntoDigest (js "# A" ++ LF :: js "1. x") = Ok ca /\
    splitIntoDigest (js "## B") = Ok cb /\
    splitIntoDigest ((js "# A" ++ LF :: js "1. x") ++ LF :: js "## B")
    = Ok (ca ++ cb).
Proof.
  apply (digest_of_texts_joined_at_header
           (js "# A" ++ LF :: js "1. x") (js "## B")).
  - reflexivity.
  - vm_compute. discriminate.
  - reflexivity.
  - vm_compute. discriminate.
Defined.

(** ** One subcard for each numbered boundary *)

(** X12.  The card of a block has one subcard for each boundary of a numbered
    item in the text after the first line of the block, trimmed: an item
    that begins that text has no line feed before it and stays in the
    body. *)
Theorem one_subcard_per_numbered_boundary (block : jsstring) :
  exists c,
    card_of_block block = Ok c /\
    List.length (subcards c) =
    count_matches numbered_boundary 0
      (trim (join [LF] (skipn 1 (split_on LF block)))).
Proof.
  exists (block_card block). split; [apply card_of_block_ok|].
  unfold block_card. cbn [subcards].
  change (skipn 1 (split_on LF block)) with (tl (split_on LF block)).
  set (rest := trim (join [LF] (tl (split_on LF block)))).
  destruct rest as [|x r] eqn:E; [reflexivity|]. cbn [truthy].
  rewrite filter_truthy_nonblank.
  - rewrite length_map.
    pose proof (split_when_length _ _ exec_numbered_boundary (x :: r) 0)
      as Hl.
    rewrite (split_when_cons _ (x :: r)) in Hl. cbn [List.length] in Hl.
    now injection Hl.
  - eapply Forall_impl; [|apply tl_split_when_items].
    intros p Hp. now destruct (item_shape_trim p Hp).
Qed.

(** ** The title-case rule on a first line *)

Lemma upper_not_ws (c : N) : upper c = true -> is_ws c = false.
Proof.
  unfold upper, is_ws. intros H. apply andb_true_iff in H as [H1 H2].
  apply N.leb_le in H1, H2.
  repeat (apply orb_false_iff; split);
    try (apply N.eqb_neq; lia);
    apply andb_false_iff; [right|left]; apply N.leb_gt; lia.
Qed.

Lemma upper_not (c x : N) :
  upper c = true -> upper x = false -> N.eqb c x = false.
Proof.
  intros Hc Hx. destruct (N.eqb c x) eqn:E; [|reflexivity].
  apply N.eqb_eq in E. congruence.
Qed.

Lemma bold_at_not_star (c : N) (t : jsstring) :
  N.eqb c STAR = false -> bold_at (c :: t) = None.
Proof.
  intros H. unfold bold_at. destruct t; [reflexivity|]. now rewrite H.
Qed.

Lemma heading_at_line (c : N) (X r : jsstring) :
  upper c = true ->
  Forall (fun x => heading_char x = true) X ->
  trim r = r -> r <> [] ->
  heading_at (c :: X ++ COLON :: LF :: r) =
  if Nat.leb 4 (List.length X) && Nat.leb (List.length X) 80
  then Some (c :: X, 1) else None.
Proof.
  intros Hc HX Hr Hne. destruct r as [|d r]; [contradiction|].
  pose proof (trim_head _ _ _ Hr) as Hd.
  unfold heading_at. rewrite Hc.
  rewrite (prefix_upto_app_stop heading_char X COLON _ HX eq_refl).
  destruct (Nat.leb (List.length X) 80) eqn:E80.
  - apply Nat.leb_le in E80. rewrite firstn_all2 by exact E80.
    destruct (Nat.leb 4 (List.length X)); cbn [andb]; [|reflexivity].
    rewrite skipn_length_app. rewrite N.eqb_refl.
    cbn [ws_lf]. change (is_ws LF) with true. cbv iota.
    rewrite Hd. now rewrite N.eqb_refl.
  - apply Nat.leb_gt in E80. rewrite andb_false_r.
    rewrite length_firstn, Nat.min_l by lia.
    change (Nat.leb 4 80) with true. cbv iota.
    rewrite skipn_app.
    destruct (skipn 80 X) as [|x u] eqn:Es.
    { apply (f_equal (@List.length N)) in Es.
      rewrite length_skipn in Es. simpl in Es. lia. }
    assert (Hx : heading_char x = true).
    { rewrite Forall_forall in HX. apply HX.
      rewrite <- (firstn_skipn 80 X), Es. apply in_or_app. right. now left. }
    apply heading_char_not_colon in Hx. rewrite N.eqb_sym in Hx.
    cbn [app]. now rewrite Hx.
Qed.

(** X13.  A first line [X:] whose heading [X] is a capital letter followed by
    heading characters, with text on the next line, is rewritten to the
    header [### X] exactly when 4 to 80 characters follow the capital
    letter; the colon goes and no blank line is added.  A shorter or longer
    heading leaves the text as it is. *)
Theorem title_case_rule_heading_bounds (c : N) (X r : jsstring) :
  upper c = true ->
  forallb heading_char X = true ->
  existsb (N.eqb COLON) r = false ->
  trim r = r -> r <> [] ->
  prettifyMarkdown (c :: X ++ COLON :: LF :: r) =
  if Nat.leb 4 (List.length X) && Nat.leb (List.length X) 80
  then js "### " ++ c :: X ++ LF :: r
  else c :: X ++ COLON :: LF :: r.
Proof.
  intros Hc HX Hcol Hr Hne.
  assert (HF : Forall (fun x => heading_char x = true) X).
  { apply Forall_forall. now apply forallb_forall. }
  apply existsb_eqb_false in Hcol.
  assert (Hcl : ~ In COLON (LF :: r))
    by (intros [E|H]; [discriminate | contradiction]).
  assert (Hline : ~ In LF (X ++ [COLON])).
  { intros H. apply in_app_or in H as [H|[E|[]]]; [|discriminate].
    revert H. now apply (Forall_not_in heading_char). }
  assert (Hlf : N.eqb c LF = false) by now apply upper_not.
  assert (Es : X ++ COLON :: LF :: r = (X ++ [COLON]) ++ LF :: r)
    by now rewrite <- app_assoc.
  assert (Hb : replace_go bold_header bold_header_subst 1 0
                 (X ++ COLON :: LF :: r) = X ++ COLON :: LF :: r).
  { rewrite Es.
    rewrite (pass_copy _ _ bold_match_shape _ Hline) by discriminate.
    now rewrite (bold_pass_no_colon _ _ Hcl). }
  assert (Ht : replace_go title_case_header title_case_header_subst 1 0
                 (X ++ COLON :: LF :: r) = X ++ COLON :: LF :: r).
  { rewrite Es.
    rewrite (pass_copy _ _ title_case_match_shape _ Hline) by discriminate.
    now rewrite (title_case_pass_no_colon _ _ Hcl). }
  assert (Et : trim (c :: X ++ COLON :: LF :: r) =
               c :: X ++ COLON :: LF :: r).
  { unfold trim. rewrite (trimStart_nonws _ _ (upper_not_ws _ Hc)).
    change (c :: X ++ COLON :: LF :: r)
      with ((c :: X) ++ [COLON; LF] ++ r).
    rewrite app_assoc, trimEnd_app_keep;
      now rewrite (trimmed_trimEnd r Hr). }
  rewrite prettifyMarkdown_trim, Et. unfold replace_all.
  (* the first pass copies the text *)
  rewrite (replace_go_step _ _ bold_match_bounds), exec_bold_header.
  unfold with_line_start. cbn [Nat.eqb].
  rewrite (bold_at_not_star c _ (upper_not c STAR Hc eq_refl)), Hlf, Hb.
  (* the second pass *)
  rewrite (replace_go_step _ _ title_case_match_bounds),
    exec_title_case_header.
  unfold with_line_start. cbn [Nat.eqb].
  rewrite (heading_at_line c X r Hc HF Hr Hne).
  destruct (Nat.leb 4 (List.length X) && Nat.leb (List.length X) 80).
  - cbn [subst title_case_header_subst flat_map get_cap Nat.eqb app].
    assert (Hsk : skipn (List.length (c :: X) + 1 + 1)
                        (c :: X ++ COLON :: LF :: r) = r).
    { replace (List.length (c :: X) + 1 + 1)
        with (List.length ((c :: X) ++ [COLON; LF]))
        by (rewrite length_app; simpl; lia).
      change (c :: X ++ COLON :: LF :: r)
        with ((c :: X) ++ [COLON; LF] ++ r).
      rewrite app_assoc. apply skipn_length_app. }
    rewrite Hsk, (title_case_pass_no_colon _ _ Hcol).
    change (js "### " ++ c :: X ++ [LF])
      with ((js "### " ++ [c]) ++ X ++ [LF]).
    now rewrite <- !app_assoc.
  - now rewrite Hlf, Ht.
Qed.

Lemma title_case_rule_heading_bounds_witness :
  prettifyMarkdown (65%N :: js "bcde" ++ COLON :: LF :: js "x") =
  js "### " ++ 65%N :: js "bcde" ++ LF :: js "x".
Proof.
  apply (title_case_rule_heading_bounds 65%N (js "bcde") (js "x"));
    try reflexivity.
  discriminate.
Defined.

(** * The component *)

Lemma app_step_shape (st : App.State) (e : App.event) :
  app_shape st -> app_shape (App.step st e).
Proof.
  intros [-> | [-> | [[o ->] | [o ->]]]].
  - destruct e as [[[|c seen]|]|o|]; cbn;
      [right; left | left | left | left | left]; reflexivity.
  - destruct e as [seen|o|]; cbn;
      [right; left; reflexivity | | right; left; reflexivity].
    right. right. left. exists o. now destruct o.
  - destruct e as [seen|o'|].
    + right. right. left. exists o. now destruct o.
    + right. right. left. exists o. now destruct o.
    + right. right. right. exists o. now destruct o.
  - right. right. right. exists o.
    destruct e as [seen|o'|]; now destruct o.
Qed.

Lemma app_run_shape (evs : list App.event) :
  forall st, app_shape st -> app_shape (App.run_events evs st).
Proof.
  unfold App.run_events.
  induction evs as [|e evs IH]; intros st H; [exact H|].
  cbn [fold_left]. apply IH. now apply app_step_shape.
Qed.

Lemma app_reachable_shape (evs : list App.event) :
  app_shape (App.run_events evs App.initial).
Proof. apply app_run_shape. now left. Qed.

Lemma app_settled_fixed (evs : list App.event) (o : App.outcome) :
  App.run_events evs (app_settled o) = app_settled o.
Proof.
  unfold App.run_events.
  induction evs as [|e evs IH]; [reflexivity|].
  cbn [fold_left].
  assert (E : App.step (app_settled o) e = app_settled o)
    by (destruct e as [seen|o'|]; now destruct o).
  now rewrite E.
Qed.

Lemma app_settling_finishes (evs : list App.event) (o : App.outcome) :
  App.run_events evs (app_settling o) = app_settling o \/
  App.run_events evs (app_settling o) = app_settled o.
Proof.
  unfold App.run_events.
  induction evs as [|e evs IH]; [now left|].
  cbn [fold_left]. destruct e as [seen|o'|].
  - assert (E : App.step (app_settling o) (App.Effect seen)
                = app_settling o) by now destruct o.
    now rewrite E.
  - assert (E : App.step (app_settling o) (App.Settled o')
                = app_settling o) by now destruct o.
    now rewrite E.
  - assert (E : App.step (app_settling o) App.Finally = app_settled o)
      by now destruct o.
    rewrite E. right. apply app_settled_fixed.
Qed.

(** X14.  An instance of the component calls [getNewsSummary] at most once,
    however often and after whatever render its effect runs. *)
Theorem app_fetches_at_most_once (evs : list App.event) :
  App.calls (App.run_events evs App.initial) <= 1.
Proof.
  destruct (app_reachable_shape evs) as [-> | [-> | [[o ->] | [o ->]]]];
    try destruct o; cbn; lia.
Qed.

(** X15.  A render throws exactly when the call has resolved with a value
    that is not a string.  Otherwise it shows exactly one of the loading
    block, the error block and the cards, but for one state: between the
    [catch] branch and the [finally] branch of a rejected call the loading
    block and the error block are shown together. *)
Theorem app_render_blocks (evs : list App.event) :
  let st := App.run_events evs App.initial in
  match App.summary st with
  | App.VOther => App.render st = Throw TypeError
  | App.VString _ =>
      exists v,
        App.render st = Ok v /\
        ((App.loading_block v = true /\ App.error_block v = false /\
          App.card_blocks v = None) \/
         (App.loading_block v = false /\ App.error_block v = true /\
          App.card_blocks v = None) \/
         (App.loading_block v = false /\ App.error_block v = false /\
          exists cards, App.card_blocks v = Some cards) \/
         (App.loading_block v = true /\ App.error_block v = true /\
          App.card_blocks v = None /\ App.finishing st = 1 /\
          App.error st = Some App.FAILED))
  end.
Proof.
  cbv zeta. unfold App.render.
  destruct (app_reachable_shape evs) as [-> | [-> | [[o ->] | [o ->]]]];
    try destruct o as [[data|]|];
    cbn [App.summary App.loading App.error App.finishing App.initial
         app_in_flight app_settling app_settled];
    try reflexivity;
    unfold digest; rewrite splitIntoDigest_ok; cbn [bind];
    eexists; (split; [reflexivity|]); cbn; eauto 12.
Qed.

(** X16.  Once the pending call has settled and its [finally] branch has
    run, the outcome stays on the screen whatever happens in between and
    later: the cards of the data when the call resolved with a string, the
    error block alone when it was rejected; when it resolved with a value
    that is not a string, every render throws. *)
Theorem app_outcome_is_final (evs1 evs2 evs3 : list App.event)
  (o : App.outcome) :
  0 < App.pending (App.run_events evs1 App.initial) ->
  App.render
    (App.run_events
       (evs1 ++ App.Settled o :: evs2 ++ App.Finally :: evs3)
       App.initial) =
  match o with
  | App.Resolved (App.VString data) =>
      cards <- digest data ;; Ok (App.mkView false false (Some cards))
  | App.Resolved App.VOther => Throw TypeError
  | App.Rejected => Ok (App.mkView false true None)
  end.
Proof.
  intros Hp.
  assert (E : App.run_events
                (evs1 ++ App.Settled o :: evs2 ++ App.Finally :: evs3)
                App.initial = app_settled o).
  { unfold App.run_events in *. rewrite fold_left_app.
    cbn [fold_left]. rewrite fold_left_app. cbn [fold_left].
    fold (App.run_events evs1 App.initial) in *.
    destruct (app_reachable_shape evs1)
      as [E1 | [E1 | [[o1 E1] | [o1 E1]]]];
      rewrite E1 in *; try (destruct o1); cbn in Hp; try lia.
    assert (Es : App.step app_in_flight (App.Settled o) = app_settling o)
      by now destruct o.
    rewrite Es.
    fold (App.run_events evs2 (app_settling o)).
    assert (Ef : App.step (App.run_events evs2 (app_settling o))
                          App.Finally = app_settled o).
    { destruct (app_settling_finishes evs2 o) as [-> | ->];
        now destruct o. }
    rewrite Ef. apply app_settled_fixed. }
  rewrite E. destruct o as [[data|]|]; reflexivity.
Qed.

Lemma app_outcome_is_final_witness :
  App.render
    (App.run_events
       ([App.Effect (App.VString [])]
        ++ App.Settled (App.Resolved (App.VString (js "# A")))
        :: [App.Effect (App.VString (js "# A"))]
        ++ App.Finally :: [App.Effect (App.VString (js "# A"))])
       App.initial) =
  (cards <- digest (js "# A") ;; Ok (App.mkView false false (Some cards))).
Proof.
  apply (app_outcome_is_final
           [App.Effect (App.VString [])]
           [App.Effect (App.VString (js "# A"))]
           [App.Effect (App.VString (js "# A"))]
           (App.Resolved (App.VString (js "# A")))).
  vm_compute. lia.
Defined.
